(** * Timed automata, alternating timed automata and the Golog program handle

    A shallow embedding of
    - [src/ta/include/ta/ta.h]            (module [TA]),
    - [src/automata/include/automata/ta_product.hpp] (module [TA], section
      [Product]),
    - [src/ta/include/ta/ata.h]           (module [ATA]),
    - [src/gocos/golog_program.cpp]       (module [Golog]),
    together with the properties the specification states about them. *)

From stdpp Require Import base numbers gmap strings list fin_sets.
From Stdlib Require Import QArith Qcanon.

Open Scope Qc_scope.

(* [set_solver] clears hypotheses that are sometimes already gone. *)
#[local] Set Warnings "-clear-no-such-hyp".

#[local] Set Default Proof Using "Type".

(** ** Shared vocabulary ([automata.h])

    [automata.h] itself is not among the sources; the aliases below are the
    ones every user of it relies on: [Symbol] is a [std::string], [Time] a
    [double].  Time is modelled by exact rationals, the reading the
    specification gives of clock values; a [double] that is not a number
    has no counterpart here. *)

Abbreviation Symbol := string (only parsing).
Abbreviation Time := Qc (only parsing).
Abbreviation TimedWord := (list (string * Qc)) (only parsing).

(** A call either returns a value or leaves by an exception of type [E]. *)
Inductive outcome (E A : Type) : Type :=
| Returns (a : A)
| Throws (e : E).
Arguments Returns {E A} a.
Arguments Throws {E A} e.

#[global] Instance outcome_ret {E} : MRet (outcome E) := λ A a, Returns a.
#[global] Instance outcome_bind {E} : MBind (outcome E) :=
  λ A B f m, match m with Returns a => f a | Throws e => Throws e end.

#[global] Instance outcome_eq_dec {E A} `{EqDecision E, EqDecision A} :
  EqDecision (outcome E A).
Proof. solve_decision. Defined.

(** A range-based [for] whose body may throw: the exception leaves the loop. *)
Fixpoint for_each {E A S : Type} (body : A → S → outcome E S)
    (range : list A) (s : S) : outcome E S :=
  match range with
  | [] => Returns s
  | a :: range' => s' ← body a s; for_each body range' s'
  end.

(** Closed decidable facts are settled by evaluation. *)
Ltac by_evaluation := apply (bool_decide_unpack _); vm_compute; exact I.

(** Modelled from the spec: [ClockConstraint], [is_satisfied] and [Clock] are
    declared in [automata.h], which is missing.  A constraint is one of
    [<], [<=], [=], [>=], [>] against a bound; a clock can be reset to 0,
    advanced and read. *)
Inductive Comparator : Type := less | less_equal | equal_to | greater_equal | greater.

Record ClockConstraint : Type := AtomicClockConstraintT {
  comparator_ : Comparator;
  comparand_ : Time
}.

#[global] Instance Comparator_eq_dec : EqDecision Comparator.
Proof. solve_decision. Defined.
#[global] Instance ClockConstraint_eq_dec : EqDecision ClockConstraint.
Proof. solve_decision. Defined.

Definition is_satisfied (constraint : ClockConstraint) (valuation : Time) : bool :=
  match comparator_ constraint with
  | less => bool_decide (valuation < comparand_ constraint)
  | less_equal => bool_decide (valuation ≤ comparand_ constraint)
  | equal_to => bool_decide (valuation = comparand_ constraint)
  | greater_equal => bool_decide (comparand_ constraint ≤ valuation)
  | greater => bool_decide (comparand_ constraint < valuation)
  end.

Abbreviation Clock := Qc (only parsing).
Definition tick (clock : Clock) (diff : Time) : Clock := clock + diff.
Definition reset (clock : Clock) : Clock := 0.
Definition get_valuation (clock : Clock) : Time := clock.

(** * Timed automata ([ta.h]) *)
Module TA.

(** The exceptions a timed automaton raises.  [out_of_range] is the one
    [std::map::at] throws; [NotImplementedException] belongs to the product. *)
Inductive exception (LocationT : Type) : Type :=
| InvalidLocationException (location : LocationT)
| InvalidClockException (clock_name : string)
| out_of_range
| NotImplementedException.
Arguments InvalidLocationException {LocationT} location.
Arguments InvalidClockException {LocationT} clock_name.
Arguments out_of_range {LocationT}.
Arguments NotImplementedException {LocationT}.

#[global] Instance exception_eq_dec {L} `{EqDecision L} : EqDecision (exception L).
Proof. solve_decision. Defined.

(** [class Transition]: the guard is a [std::multimap] from clock names to
    constraints, kept here as the list of its entries in iteration order. *)
Record Transition (LocationT : Type) : Type := mkTransition {
  source_ : LocationT;
  symbol_ : Symbol;
  target_ : LocationT;
  clock_constraints_ : list (string * ClockConstraint);
  clock_resets_ : gset string
}.
Arguments mkTransition {LocationT}.
Arguments source_ {LocationT}.
Arguments symbol_ {LocationT}.
Arguments target_ {LocationT}.
Arguments clock_constraints_ {LocationT}.
Arguments clock_resets_ {LocationT}.

(** [class Path]. *)
Record Path (LocationT : Type) : Type := mkPath {
  sequence_ : list (Symbol * Time * LocationT);
  clock_valuations_ : gmap string Clock;
  current_location_ : LocationT;
  tick_ : Time
}.
Arguments mkPath {LocationT}.
Arguments sequence_ {LocationT}.
Arguments clock_valuations_ {LocationT}.
Arguments current_location_ {LocationT}.
Arguments tick_ {LocationT}.

(** [class TimedAutomaton].  [transitions_] is a [std::multimap] keyed by the
    source location; entries with equal keys stay in insertion order, and the
    automaton only ever asks for [equal_range] of one key or walks all
    entries, so the list of transitions in insertion order carries the same
    information.

    Modelled from the spec: [ta.h] as given has no alphabet, while
    [get_product] builds its result from an alphabet too and reads
    [get_alphabet()]; the field [alphabet_] stands for that member.  No
    operation of [ta.h] reads it. *)
Record TimedAutomaton (LocationT : Type) `{Countable LocationT} : Type := mkTA {
  alphabet_ : gset Symbol;
  locations_ : gset LocationT;
  initial_location_ : LocationT;
  final_locations_ : gset LocationT;
  clocks_ : gset string;
  transitions_ : list (Transition LocationT)
}.
Arguments mkTA {LocationT _ _}.
Arguments alphabet_ {LocationT _ _}.
Arguments locations_ {LocationT _ _}.
Arguments initial_location_ {LocationT _ _}.
Arguments final_locations_ {LocationT _ _}.
Arguments clocks_ {LocationT _ _}.
Arguments transitions_ {LocationT _ _}.

#[global] Instance Transition_eq_dec {L} `{EqDecision L} : EqDecision (Transition L).
Proof. solve_decision. Defined.
#[global] Instance Path_eq_dec {L} `{EqDecision L} : EqDecision (Path L).
Proof. solve_decision. Defined.
#[global] Instance TimedAutomaton_eq_dec {L} `{Countable L} : EqDecision (TimedAutomaton L).
Proof. solve_decision. Defined.

Section Automaton.
Context {LocationT : Type} `{Countable LocationT}.

Abbreviation TAut := (TimedAutomaton LocationT).
Abbreviation Trans := (Transition LocationT).
Abbreviation exn := (exception LocationT).

Definition add_location (location : LocationT) (ta : TAut) : TAut :=
  mkTA (alphabet_ ta) ({[location]} ∪ locations_ ta) (initial_location_ ta)
       (final_locations_ ta) (clocks_ ta) (transitions_ ta).

Definition add_clock (name : string) (ta : TAut) : TAut :=
  mkTA (alphabet_ ta) (locations_ ta) (initial_location_ ta)
       (final_locations_ ta) ({[name]} ∪ clocks_ ta) (transitions_ ta).

Definition add_locations (locations : gset LocationT) (ta : TAut) : TAut :=
  set_fold add_location ta locations.

(** The constructor of [ta.h], with the alphabet [get_product] passes first. *)
Definition new_TimedAutomaton (alphabet : gset Symbol) (initial_location : LocationT)
    (final_locations : gset LocationT) : TAut :=
  add_locations final_locations
    (mkTA alphabet {[initial_location]} initial_location final_locations ∅ []).

(** The first clock name of a range that is not a clock of the automaton. *)
Definition first_unknown_clock (clocks : gset string) (names : list string) : option string :=
  find (λ clock_name, bool_decide (clock_name ∉ clocks)) names.

(** [add_transition] mutates the automaton; the model returns the automaton
    after the call together with the way the call ended.  Which of several
    unknown reset clocks the exception names depends on the order in which
    the [std::set] is walked, here that of [elements]. *)
Definition add_transition (transition : Trans) (ta : TAut) : TAut * outcome exn () :=
  if bool_decide (source_ transition ∉ locations_ ta) then
    (ta, Throws (InvalidLocationException (source_ transition)))
  else if bool_decide (target_ transition ∉ locations_ ta) then
    (ta, Throws (InvalidLocationException (target_ transition)))
  else match first_unknown_clock (clocks_ ta) (clock_constraints_ transition).*1 with
  | Some clock_name => (ta, Throws (InvalidClockException clock_name))
  | None =>
    match first_unknown_clock (clocks_ ta) (elements (clock_resets_ transition)) with
    | Some clock_name => (ta, Throws (InvalidClockException clock_name))
    | None =>
      (mkTA (alphabet_ ta) (locations_ ta) (initial_location_ ta) (final_locations_ ta)
            (clocks_ ta) (transitions_ ta ++ [transition]),
       Returns ())
    end
  end.

(** What the documentation of [add_transition] asks of a transition. *)
Definition mentions_known (ta : TAut) (transition : Trans) : Prop :=
  source_ transition ∈ locations_ ta
  ∧ target_ transition ∈ locations_ ta
  ∧ Forall (λ clock_name, clock_name ∈ clocks_ ta) (clock_constraints_ transition).*1
  ∧ clock_resets_ transition ⊆ clocks_ ta.

Definition unknown_clock (ta : TAut) (transition : Trans) : Prop :=
  (∃ clock_name, clock_name ∈ (clock_constraints_ transition).*1 ∧ clock_name ∉ clocks_ ta)
  ∨ (∃ clock_name, clock_name ∈ clock_resets_ transition ∧ clock_name ∉ clocks_ ta).

Definition unknown_location (ta : TAut) (transition : Trans) : Prop :=
  source_ transition ∉ locations_ ta ∨ target_ transition ∉ locations_ ta.

(** The class invariant: what every automaton built through the public
    interface satisfies. *)
Record well_formed (ta : TAut) : Prop := {
  wf_initial : initial_location_ ta ∈ locations_ ta;
  wf_final : final_locations_ ta ⊆ locations_ ta;
  wf_transitions : Forall (mentions_known ta) (transitions_ ta)
}.

#[global] Instance mentions_known_dec (ta : TAut) (transition : Trans) :
  Decision (mentions_known ta transition).
Proof. unfold mentions_known. apply _. Defined.

#[global] Instance well_formed_dec (ta : TAut) : Decision (well_formed ta).
Proof.
  refine (cast_if (decide (initial_location_ ta ∈ locations_ ta
                           ∧ final_locations_ ta ⊆ locations_ ta
                           ∧ Forall (mentions_known ta) (transitions_ ta))));
    [abstract (by destruct a as (? & ? & ?)) | abstract (by intros [? ? ?]; apply n)].
Defined.

(** *** Paths *)
Abbreviation PathT := (Path LocationT).

Definition new_Path (initial_location : LocationT) (clocks : gset string) : PathT :=
  mkPath [] (gset_to_gmap 0 clocks) initial_location 0.

(** *** [Transition::is_enabled] *)
Fixpoint all_satisfied (constraints : list (string * ClockConstraint))
    (clock_vals : gmap string Clock) : outcome exn bool :=
  match constraints with
  | [] => Returns true
  | constraint :: constraints' =>
    match clock_vals !! constraint.1 with
    | None => Throws out_of_range
    | Some clock =>
      if is_satisfied constraint.2 (get_valuation clock)
      then all_satisfied constraints' clock_vals
      else Returns false
    end
  end.

Definition is_enabled (transition : Trans) (symbol : Symbol)
    (clock_vals : gmap string Clock) : outcome exn bool :=
  if bool_decide (symbol ≠ symbol_ transition) then Returns false
  else all_satisfied (clock_constraints_ transition) clock_vals.

(** *** [TimedAutomaton::make_transition] *)
Definition equal_range (ta : TAut) (location : LocationT) : list Trans :=
  filter (λ transition, source_ transition = location) (transitions_ ta).

Definition reset_clocks (clock_resets : gset string)
    (clock_vals : gmap string Clock) : gmap string Clock :=
  set_fold (λ name vals, <[name := reset (default 0 (vals !! name))]> vals)
           clock_vals clock_resets.

(** The body of the [while] loop once an enabled transition is found: the
    loop's own [path] is updated in place and a copy of it is inserted. *)
Definition take_transition (trans : Trans) (symbol : Symbol) (time : Time)
    (path : PathT) : PathT :=
  mkPath (sequence_ path ++ [(symbol, time, target_ trans)])
         (reset_clocks (clock_resets_ trans) (clock_valuations_ path))
         (target_ trans)
         (tick_ path).

(** The clocks of [path] advanced to the absolute [time]. *)
Definition advance (path : PathT) (time : Time) : PathT :=
  mkPath (sequence_ path)
         ((λ clock, tick clock (time - tick_ path)) <$> clock_valuations_ path)
         (current_location_ path)
         time.

Definition is_final (ta : TAut) (path : PathT) : bool :=
  bool_decide (current_location_ path ∈ final_locations_ ta).

(** *** Validation of transitions *)
Lemma first_unknown_clock_Some (clocks : gset string) (names : list string) (name : string) :
  first_unknown_clock clocks names = Some name → name ∈ names ∧ name ∉ clocks.
Proof.
  unfold first_unknown_clock. intros Hfind.
  apply find_some in Hfind as [Hin Hdec].
  split; [by apply list_elem_of_In | by apply bool_decide_eq_true in Hdec].
Qed.

Lemma first_unknown_clock_None (clocks : gset string) (names : list string) :
  first_unknown_clock clocks names = None ↔ Forall (λ name, name ∈ clocks) names.
Proof.
  unfold first_unknown_clock. rewrite Forall_forall. split.
  - intros Hfind name Hin%list_elem_of_In.
    pose proof (find_none _ _ Hfind name Hin) as Hdec. simpl in Hdec.
    apply bool_decide_eq_false in Hdec. by apply dec_stable.
  - intros Hall. induction names as [|name names IH]; [done|]. simpl.
    rewrite bool_decide_eq_false_2; [|intros Hn; apply Hn, Hall; by left].
    apply IH. intros ? ?. apply Hall. by right.
Qed.

Lemma add_transition_cases (transition : Trans) (ta : TAut) :
  (unknown_location ta transition
   ∧ ∃ location, add_transition transition ta = (ta, Throws (InvalidLocationException location)))
  ∨ (¬ unknown_location ta transition ∧ unknown_clock ta transition
     ∧ ∃ clock_name, add_transition transition ta = (ta, Throws (InvalidClockException clock_name)))
  ∨ (mentions_known ta transition
     ∧ add_transition transition ta =
         (mkTA (alphabet_ ta) (locations_ ta) (initial_location_ ta) (final_locations_ ta)
               (clocks_ ta) (transitions_ ta ++ [transition]), Returns ())).
Proof.
  unfold add_transition, unknown_location, unknown_clock, mentions_known.
  case_bool_decide as Hsrc; [left; eauto|].
  case_bool_decide as Htgt; [left; eauto|].
  right.
  destruct (first_unknown_clock _ (clock_constraints_ transition).*1) as [c|] eqn:Hguard.
  { apply first_unknown_clock_Some in Hguard as [? ?]. left. split; [tauto|]. eauto 8. }
  destruct (first_unknown_clock _ (elements _)) as [c|] eqn:Hreset.
  { apply first_unknown_clock_Some in Hreset as [?%elem_of_elements ?].
    left. split; [tauto|]. eauto 8. }
  right. split; [|done]. split_and!; try done.
  - by apply first_unknown_clock_None.
  - apply first_unknown_clock_None in Hreset. rewrite Forall_forall in Hreset.
    intros c Hc%elem_of_elements. by apply Hreset.
Qed.

Lemma unknown_clock_not_mentions_known (ta : TAut) (transition : Trans) :
  unknown_clock ta transition → ¬ mentions_known ta transition.
Proof.
  intros [(c & Hin & Hout)|(c & Hin & Hout)] (_ & _ & Hg & Hr); apply Hout; [|auto].
  rewrite Forall_forall in Hg. auto.
Qed.

Lemma mentions_known_mono (ta ta' : TAut) (transition : Trans) :
  locations_ ta ⊆ locations_ ta' → clocks_ ta ⊆ clocks_ ta' →
  mentions_known ta transition → mentions_known ta' transition.
Proof.
  unfold mentions_known. intros Hl Hc (? & ? & Hg & ?). split_and!; [set_solver..| |set_solver].
  eapply Forall_impl; [done|]. set_solver.
Qed.

Lemma well_formed_mono (ta ta' : TAut) :
  locations_ ta ⊆ locations_ ta' → clocks_ ta ⊆ clocks_ ta' →
  initial_location_ ta' = initial_location_ ta →
  final_locations_ ta' = final_locations_ ta →
  transitions_ ta' = transitions_ ta →
  well_formed ta → well_formed ta'.
Proof.
  intros Hl Hc Hi Hf Ht [? ? Hall]. split.
  - rewrite Hi. set_solver.
  - rewrite Hf. set_solver.
  - rewrite Ht. eapply Forall_impl; [done|]. intros ?. by apply mentions_known_mono.
Qed.

Lemma add_location_well_formed (location : LocationT) (ta : TAut) :
  well_formed ta → well_formed (add_location location ta).
Proof. apply well_formed_mono; simpl; set_solver. Qed.

Lemma add_clock_well_formed (name : string) (ta : TAut) :
  well_formed ta → well_formed (add_clock name ta).
Proof. apply well_formed_mono; simpl; set_solver. Qed.

Lemma add_transition_well_formed (transition : Trans) (ta : TAut) :
  well_formed ta → well_formed (add_transition transition ta).1.
Proof.
  intros Hwf.
  destruct (add_transition_cases transition ta)
    as [(_ & l & ->)|[(_ & _ & c & ->)|(Hk & ->)]]; simpl; try done.
  destruct Hwf as [? ? Hall]. split; simpl; try done.
  apply Forall_app. split; [|by apply Forall_singleton].
  eapply Forall_impl; [done|]. intros ?. by apply mentions_known_mono.
Qed.

(** *** Paths never leave the clocks of the automaton *)
Lemma reset_clocks_lookup (clock_resets : gset string) (clock_vals : gmap string Clock)
    (name : string) :
  reset_clocks clock_resets clock_vals !! name
  = if decide (name ∈ clock_resets) then Some 0 else clock_vals !! name.
Proof.
  unfold reset_clocks.
  refine (set_fold_ind_L (λ vals (X : gset string),
            vals !! name = if decide (name ∈ X) then Some 0 else clock_vals !! name)
            _ _ _ _ clock_resets).
  - by rewrite decide_False by set_solver.
  - intros x X vals Hx IH. destruct (decide (name = x)) as [->|Hne].
    + rewrite lookup_insert_eq, decide_True by set_solver. done.
    + rewrite lookup_insert_ne by done. rewrite IH.
      destruct (decide (name ∈ X)).
      * by rewrite decide_True by set_solver.
      * by rewrite decide_False by set_solver.
Qed.

Lemma reset_clocks_dom (clock_resets : gset string) (clock_vals : gmap string Clock) :
  dom (reset_clocks clock_resets clock_vals) = clock_resets ∪ dom clock_vals.
Proof.
  apply set_eq. intros name.
  rewrite elem_of_union, !elem_of_dom, reset_clocks_lookup.
  destruct (decide (name ∈ clock_resets)); [|tauto].
  split; [tauto|]. intros _. by exists 0.
Qed.

Lemma all_satisfied_returns (constraints : list (string * ClockConstraint))
    (clock_vals : gmap string Clock) :
  (∀ name, name ∈ constraints.*1 → name ∈ dom clock_vals) →
  ∃ b, all_satisfied constraints clock_vals = Returns b.
Proof.
  induction constraints as [|[name constraint] constraints IH]; simpl; intros Hdom;
    [by eexists|].
  destruct (clock_vals !! name) as [clock|] eqn:Hlookup.
  - destruct (is_satisfied _ _); [|by eexists].
    apply IH. intros ? ?. apply Hdom. by right.
  - assert (name ∈ dom clock_vals) as Hin by (apply Hdom; by left).
    apply elem_of_dom in Hin as [? ?]. congruence.
Qed.

Lemma is_enabled_returns (ta : TAut) (transition : Trans) (symbol : Symbol)
    (clock_vals : gmap string Clock) :
  mentions_known ta transition → clocks_ ta ⊆ dom clock_vals →
  ∃ b, is_enabled transition symbol clock_vals = Returns b.
Proof.
  intros (_ & _ & Hguard & _) Hdom. unfold is_enabled.
  case_bool_decide; [by eexists|].
  apply all_satisfied_returns. intros name Hname. rewrite Forall_forall in Hguard.
  apply Hdom, Hguard, Hname.
Qed.

(** What holds of every path of an automaton that has read up to [time]. *)
Definition path_at (ta : TAut) (time : Time) (path : PathT) : Prop :=
  tick_ path = time ∧ clocks_ ta ⊆ dom (clock_valuations_ path).

Lemma take_transition_path_at (ta : TAut) (trans : Trans) (symbol : Symbol)
    (time : Time) (path : PathT) :
  path_at ta time path → path_at ta time (take_transition trans symbol time path).
Proof.
  intros [Htick Hdom]. split; simpl; [done|]. rewrite reset_clocks_dom. set_solver.
Qed.

(** C5, as amended.  [add_transition] throws [InvalidLocationException]
    exactly when the source or the target is not a location of the automaton;
    it throws [InvalidClockException] exactly when both are locations and
    some guard clock or reset clock is not a clock of the automaton; whenever
    it throws, the automaton is left as it was; it returns exactly when the
    transition mentions only known locations and clocks, and then the
    transition is appended; so every stored transition keeps mentioning only
    known clocks and locations. *)
Theorem add_transition_validates (transition : Trans) (ta : TAut) :
  ((∃ location, (add_transition transition ta).2 = Throws (InvalidLocationException location))
   ↔ unknown_location ta transition)
  ∧ ((∃ clock_name, (add_transition transition ta).2 = Throws (InvalidClockException clock_name))
     ↔ ¬ unknown_location ta transition ∧ unknown_clock ta transition)
  ∧ (∀ e, (add_transition transition ta).2 = Throws e → (add_transition transition ta).1 = ta)
  ∧ ((add_transition transition ta).2 = Returns () ↔ mentions_known ta transition)
  ∧ ((add_transition transition ta).2 = Returns () →
     transitions_ (add_transition transition ta).1 = transitions_ ta ++ [transition]
     ∧ locations_ (add_transition transition ta).1 = locations_ ta
     ∧ clocks_ (add_transition transition ta).1 = clocks_ ta)
  ∧ (well_formed ta → well_formed (add_transition transition ta).1).
Proof.
  assert (mentions_known ta transition → ¬ unknown_location ta transition) as Hkl.
  { intros (? & ? & _) [?|?]; done. }
  pose proof (unknown_clock_not_mentions_known ta transition) as Hkc.
  split_and!; [..|apply add_transition_well_formed];
    destruct (add_transition_cases transition ta)
      as [(Hl & l & ->)|[(Hl & Hc & c & ->)|(Hk & ->)]]; simpl;
    try (split; intros; try done); try naive_solver.
Qed.

(** *** The constructor establishes the class invariant *)
Lemma add_locations_unfold (locations : gset LocationT) (ta : TAut) :
  add_locations locations ta
  = mkTA (alphabet_ ta) (locations ∪ locations_ ta) (initial_location_ ta)
         (final_locations_ ta) (clocks_ ta) (transitions_ ta).
Proof.
  unfold add_locations.
  refine (set_fold_ind_L (λ res (X : gset LocationT),
            res = mkTA (alphabet_ ta) (X ∪ locations_ ta) (initial_location_ ta)
                       (final_locations_ ta) (clocks_ ta) (transitions_ ta))
            _ _ _ _ locations).
  - destruct ta. simpl. by rewrite (left_id_L ∅ (∪)).
  - intros x X res _ ->. unfold add_location. simpl. by rewrite (assoc_L (∪)).
Qed.

Lemma new_TimedAutomaton_unfold (alphabet : gset Symbol) (initial_location : LocationT)
    (final_locations : gset LocationT) :
  new_TimedAutomaton alphabet initial_location final_locations
  = mkTA alphabet (final_locations ∪ {[initial_location]}) initial_location
         final_locations ∅ [].
Proof. unfold new_TimedAutomaton. by rewrite add_locations_unfold. Qed.

Lemma new_TimedAutomaton_well_formed (alphabet : gset Symbol)
    (initial_location : LocationT) (final_locations : gset LocationT) :
  well_formed (new_TimedAutomaton alphabet initial_location final_locations).
Proof. rewrite new_TimedAutomaton_unfold. split; simpl; [set_solver..|done]. Qed.

(** *** Loops that add locations, clocks and transitions *)
Lemma foldl_add_location (locations : list LocationT) (ta : TAut) :
  foldl (λ res location, add_location location res) ta locations
  = mkTA (alphabet_ ta) (list_to_set locations ∪ locations_ ta) (initial_location_ ta)
         (final_locations_ ta) (clocks_ ta) (transitions_ ta).
Proof.
  revert ta. induction locations as [|l locations IH]; intros ta; simpl.
  - destruct ta. simpl. by rewrite (left_id_L ∅ (∪)).
  - rewrite IH. simpl. f_equal. set_solver.
Qed.

Lemma foldl_add_clock (clocks : list string) (ta : TAut) :
  foldl (λ res clock, add_clock clock res) ta clocks
  = mkTA (alphabet_ ta) (locations_ ta) (initial_location_ ta)
         (final_locations_ ta) (list_to_set clocks ∪ clocks_ ta) (transitions_ ta).
Proof.
  revert ta. induction clocks as [|c clocks IH]; intros ta; simpl.
  - destruct ta. simpl. by rewrite (left_id_L ∅ (∪)).
  - rewrite IH. simpl. f_equal. set_solver.
Qed.

Section Ordered.

(** *** Paths and the order [std::set<Path>] keeps them in

    [operator<] on a location type is a parameter of the template; the paths
    of a [std::set<Path>] are compared by their [sequence_] alone, vectors and
    tuples lexicographically. *)
Variable location_lt : LocationT → LocationT → bool.

Definition step_lt (x y : Symbol * Time * LocationT) : bool :=
  if String.ltb x.1.1 y.1.1 then true
  else if String.ltb y.1.1 x.1.1 then false
  else if bool_decide (x.1.2 < y.1.2) then true
  else if bool_decide (y.1.2 < x.1.2) then false
  else location_lt x.2 y.2.

Fixpoint sequence_lt (s1 s2 : list (Symbol * Time * LocationT)) : bool :=
  match s1, s2 with
  | _, [] => false
  | [], _ :: _ => true
  | x :: s1', y :: s2' =>
    if step_lt x y then true
    else if step_lt y x then false
    else sequence_lt s1' s2'
  end.

Definition path_lt (p1 p2 : PathT) : bool :=
  sequence_lt (sequence_ p1) (sequence_ p2).

(** [std::set<Path>::insert]: the set is the list of its elements in
    increasing order; a path equivalent to a stored one is not inserted. *)
Fixpoint set_insert (path : PathT) (paths : list PathT) : list PathT :=
  match paths with
  | [] => [path]
  | p :: paths' =>
    if path_lt path p then path :: p :: paths'
    else if path_lt p path then p :: set_insert path paths'
    else p :: paths'
  end.

(** [paths.insert(first, last)]. *)
Definition set_insert_range (new_paths paths : list PathT) : list PathT :=
  foldl (λ acc path, set_insert path acc) paths new_paths.

(** *** [TimedAutomaton::make_transition]: the loop over the transitions *)
(** The [while (first != last)] loop: [std::find_if] skips the transitions
    that are not enabled on the current [path]; the search resumes behind
    the transition taken. *)
Fixpoint make_transition_loop (range : list Trans) (symbol : Symbol) (time : Time)
    (path : PathT) (paths : list PathT) : outcome exn (list PathT) :=
  match range with
  | [] => Returns paths
  | trans :: range' =>
    enabled ← is_enabled trans symbol (clock_valuations_ path);
    if enabled : bool then
      let path := take_transition trans symbol time path in
      make_transition_loop range' symbol time path (set_insert path paths)
    else make_transition_loop range' symbol time path paths
  end.

Definition make_transition (ta : TAut) (path : PathT) (symbol : Symbol)
    (time : Time) : outcome exn (list PathT) :=
  if bool_decide (time < tick_ path) then Returns []
  else
    let path := advance path time in
    make_transition_loop (equal_range ta (current_location_ path)) symbol time path [].

(** *** [TimedAutomaton::accepts_word] *)
Definition read_symbol (ta : TAut) (symbol : Symbol) (time : Time)
    (paths : list PathT) : outcome exn (list PathT) :=
  for_each (λ path res_paths,
              new_paths ← make_transition ta path symbol time;
              mret (set_insert_range new_paths res_paths))
           paths [].

Fixpoint accepts_word_from (ta : TAut) (word : TimedWord)
    (paths : list PathT) : outcome exn bool :=
  match word with
  | [] => Returns (existsb (is_final ta) paths)
  | (symbol, time) :: word' =>
    paths ← read_symbol ta symbol time paths;
    match paths with
    | [] => Returns false
    | _ => accepts_word_from ta word' paths
    end
  end.

Definition accepts_word (ta : TAut) (word : TimedWord) : outcome exn bool :=
  accepts_word_from ta word [new_Path (initial_location_ ta) (clocks_ ta)].

Lemma set_insert_Forall (P : PathT → Prop) (path : PathT) (paths : list PathT) :
  P path → Forall P paths → Forall P (set_insert path paths).
Proof.
  intros Hpath. induction 1 as [|p paths Hp Hpaths IH]; simpl.
  - by apply Forall_singleton.
  - destruct (path_lt path p); [by repeat constructor|].
    destruct (path_lt p path); by constructor.
Qed.

Lemma set_insert_range_Forall (P : PathT → Prop) (new_paths paths : list PathT) :
  Forall P new_paths → Forall P paths → Forall P (set_insert_range new_paths paths).
Proof.
  unfold set_insert_range. intros Hnew. revert paths.
  induction Hnew as [|p new_paths Hp Hnew IH]; simpl; [done|].
  intros paths Hpaths. by apply IH, set_insert_Forall.
Qed.

Lemma make_transition_loop_returns (ta : TAut) (range : list Trans) (symbol : Symbol)
    (time : Time) (path : PathT) (paths : list PathT) :
  Forall (mentions_known ta) range →
  path_at ta time path → Forall (path_at ta time) paths →
  ∃ res, make_transition_loop range symbol time path paths = Returns res
         ∧ Forall (path_at ta time) res.
Proof.
  intros Hrange. revert path paths.
  induction Hrange as [|trans range Hknown Hrange IH]; simpl; intros path paths Hpath Hpaths.
  { by eexists. }
  destruct (is_enabled_returns ta trans symbol (clock_valuations_ path))
    as [enabled ->]; [done|apply Hpath|]. simpl.
  destruct enabled; [|by apply IH].
  apply IH; [by apply take_transition_path_at|].
  by apply set_insert_Forall; [apply take_transition_path_at|].
Qed.

Lemma make_transition_returns (ta : TAut) (path : PathT) (symbol : Symbol) (time : Time) :
  well_formed ta → clocks_ ta ⊆ dom (clock_valuations_ path) →
  ∃ res, make_transition ta path symbol time = Returns res
         ∧ Forall (path_at ta time) res.
Proof.
  intros [_ _ Hall] Hdom. unfold make_transition.
  case_bool_decide; [by eexists|].
  apply make_transition_loop_returns; [| |done].
  - unfold equal_range. induction Hall as [|trans range ? ? IH]; [done|].
    rewrite filter_cons. case_decide; [by constructor|done].
  - split; simpl; [done|]. by rewrite dom_fmap_L.
Qed.

Lemma read_symbol_returns (ta : TAut) (symbol : Symbol) (time : Time) (paths : list PathT) :
  well_formed ta →
  Forall (λ path, clocks_ ta ⊆ dom (clock_valuations_ path)) paths →
  ∃ res, read_symbol ta symbol time paths = Returns res
         ∧ Forall (path_at ta time) res
         ∧ (Forall (λ path, time < tick_ path) paths → res = []).
Proof.
  intros Hwf. unfold read_symbol.
  assert (∀ acc, Forall (path_at ta time) acc → 
    Forall (λ path, clocks_ ta ⊆ dom (clock_valuations_ path)) paths →
    ∃ res, for_each (λ path res_paths,
                       new_paths ← make_transition ta path symbol time;
                       mret (set_insert_range new_paths res_paths)) paths acc
           = Returns res
      ∧ Forall (path_at ta time) res
      ∧ (Forall (λ path, time < tick_ path) paths → res = acc)) as Hgen.
  { induction paths as [|path paths IH]; simpl; intros acc Hacc Hpaths.
    { by eexists. }
    apply Forall_cons in Hpaths as [Hpath Hpaths].
    destruct (make_transition_returns ta path symbol time Hwf Hpath)
      as (new_paths & Hmt & Hnew).
    rewrite Hmt. simpl.
    destruct (IH (set_insert_range new_paths acc)) as (res & -> & Hres & Hempty);
      [by apply set_insert_range_Forall|done|].
    eexists. split_and!; [done..|].
    intros [Hlt Hrest]%Forall_cons. rewrite (Hempty Hrest).
    unfold make_transition in Hmt. rewrite bool_decide_eq_true_2 in Hmt by done.
    by inversion Hmt. }
  intros Hpaths. by apply Hgen.
Qed.

(** *** Timed words whose timestamps decrease *)
(** Some timestamp of [word] is smaller than the one before it, [last] being
    the timestamp before the first. *)
Fixpoint decreases_after (last : Time) (word : TimedWord) : Prop :=
  match word with
  | [] => False
  | (_, time) :: word' => time < last ∨ decreases_after time word'
  end.

Definition timestamps_decrease (word : TimedWord) : Prop :=
  match word with
  | [] => False
  | (_, time) :: word' => decreases_after time word'
  end.

Lemma decreases_after_lookup (last : Time) (word : TimedWord) :
  decreases_after last word
  ↔ (∃ symbol time, word !! 0%nat = Some (symbol, time) ∧ time < last)
    ∨ ∃ i symbol1 time1 symbol2 time2,
        word !! i = Some (symbol1, time1) ∧ word !! S i = Some (symbol2, time2)
        ∧ time2 < time1.
Proof.
  revert last. induction word as [|[symbol time] word IH]; intros last; simpl.
  - split; [done|]. by intros [(? & ? & [=] & _)|(? & ? & ? & ? & ? & [=] & _)].
  - rewrite IH. split.
    + intros [Hlt|[(symbol' & time' & Hfirst & Hlt)|(i & s1 & t1 & s2 & t2 & H1 & H2 & Hlt)]].
      * left. by exists symbol, time.
      * right. by exists 0%nat, symbol, time, symbol', time'.
      * right. by exists (S i), s1, t1, s2, t2.
    + intros [(? & ? & [= <- <-] & Hlt)|(i & s1 & t1 & s2 & t2 & H1 & H2 & Hlt)];
        [by left|]. right. destruct i as [|i]; simpl in *.
      * injection H1 as <- <-. left. by exists s2, t2.
      * right. by exists i, s1, t1, s2, t2.
Qed.

(** The timestamps of [word] decrease at some point exactly when some entry
    carries a smaller timestamp than the entry before it. *)
Lemma timestamps_decrease_lookup (word : TimedWord) :
  timestamps_decrease word
  ↔ ∃ i symbol1 time1 symbol2 time2,
      word !! i = Some (symbol1, time1) ∧ word !! S i = Some (symbol2, time2)
      ∧ time2 < time1.
Proof.
  destruct word as [|[symbol time] word]; simpl.
  - split; [done|]. by intros (? & ? & ? & ? & ? & [=] & _).
  - rewrite decreases_after_lookup. split.
    + intros [(symbol' & time' & Hfirst & Hlt)|(i & s1 & t1 & s2 & t2 & H1 & H2 & Hlt)].
      * by exists 0%nat, symbol, time, symbol', time'.
      * by exists (S i), s1, t1, s2, t2.
    + intros (i & s1 & t1 & s2 & t2 & H1 & H2 & Hlt). destruct i as [|i]; simpl in *.
      * injection H1 as <- <-. left. by exists s2, t2.
      * right. by exists i, s1, t1, s2, t2.
Qed.

Lemma accepts_word_from_decreasing (ta : TAut) (word : TimedWord) (last : Time)
    (paths : list PathT) :
  well_formed ta → Forall (path_at ta last) paths → decreases_after last word →
  accepts_word_from ta word paths = Returns false.
Proof.
  intros Hwf. revert last paths.
  induction word as [|[symbol time] word IH]; simpl; intros last paths Hpaths Hdec; [done|].
  destruct (read_symbol_returns ta symbol time paths Hwf) as (res & -> & Hres & Hempty).
  { eapply Forall_impl; [done|]. by intros ? [_ ?]. }
  simpl. destruct Hdec as [Hlt|Hdec].
  - rewrite Hempty; [done|]. eapply Forall_impl; [done|]. by intros ? [-> _].
  - destruct res; [done|]. by eapply IH.
Qed.

(** C10. A symbol whose absolute time lies before the time a path has
    already reached makes [make_transition] return the empty set, no
    exception raised; hence [accepts_word] answers [false], and raises
    nothing, on every timed word whose timestamps decrease at some point. *)
Theorem make_transition_rejects_earlier_time :
  (∀ (ta : TAut) (path : PathT) (symbol : Symbol) (time : Time),
     time < tick_ path → make_transition ta path symbol time = Returns [])
  ∧ (∀ (ta : TAut) (word : TimedWord),
       well_formed ta → timestamps_decrease word →
       accepts_word ta word = Returns false).
Proof.
  split.
  - intros ta path symbol time Hlt. unfold make_transition.
    by rewrite bool_decide_eq_true_2.
  - intros ta [|[symbol time] word] Hwf Hdec; [done|].
    unfold accepts_word. simpl.
    destruct (read_symbol_returns ta symbol time
                [new_Path (initial_location_ ta) (clocks_ ta)] Hwf)
      as (res & -> & Hres & _).
    { apply Forall_singleton. simpl. by rewrite dom_gset_to_gmap. }
    simpl. destruct res; [done|]. by eapply accepts_word_from_decreasing.
Qed.

Lemma accepts_word_from_returns (ta : TAut) (word : TimedWord) (paths : list PathT) :
  well_formed ta →
  Forall (λ path, clocks_ ta ⊆ dom (clock_valuations_ path)) paths →
  ∃ b, accepts_word_from ta word paths = Returns b.
Proof.
  intros Hwf. revert paths.
  induction word as [|[symbol time] word IH]; simpl; intros paths Hpaths; [by eexists|].
  destruct (read_symbol_returns ta symbol time paths Hwf Hpaths) as (res & -> & Hres & _).
  simpl. destruct res; [by eexists|]. apply IH.
  eapply Forall_impl; [done|]. by intros ? [_ ?].
Qed.

Lemma accepts_word_returns (ta : TAut) (word : TimedWord) :
  well_formed ta → ∃ b, accepts_word ta word = Returns b.
Proof.
  intros Hwf. apply accepts_word_from_returns; [done|].
  apply Forall_singleton. simpl. by rewrite dom_gset_to_gmap.
Qed.

End Ordered.

End Automaton.
(** ** The product of two timed automata ([ta_product.hpp]) *)
Section Product.
Context {LocationT1 LocationT2 : Type} `{Countable LocationT1, Countable LocationT2}.

Abbreviation ProductLocation := (LocationT1 * LocationT2)%type.
Abbreviation TAut1 := (TimedAutomaton LocationT1).
Abbreviation TAut2 := (TimedAutomaton LocationT2).
Abbreviation ProductTA := (TimedAutomaton (LocationT1 * LocationT2)).

(** The transition of the product in which the first automaton takes
    [transition] and the second stays in [l2], and the other way round. *)
Definition first_moves (transition : Transition LocationT1) (l2 : LocationT2) :
    Transition ProductLocation :=
  mkTransition (source_ transition, l2) (symbol_ transition) (target_ transition, l2)
               (clock_constraints_ transition) (clock_resets_ transition).

Definition second_moves (l1 : LocationT1) (transition : Transition LocationT2) :
    Transition ProductLocation :=
  mkTransition (l1, source_ transition) (symbol_ transition) (l1, target_ transition)
               (clock_constraints_ transition) (clock_resets_ transition).

(** [res.add_transition(...)] inside [get_product]: an exception leaves
    [get_product], and [res] with it. *)
Definition call_add_transition (transition : Transition ProductLocation)
    (res : ProductTA) : outcome (exception ProductLocation) ProductTA :=
  match add_transition transition res with
  | (res, Returns _) => Returns res
  | (_, Throws e) => Throws e
  end.

Definition get_product (ta1 : TAut1) (ta2 : TAut2) (synchronized_actions : gset Symbol) :
    outcome (exception ProductLocation) ProductTA :=
  if bool_decide (synchronized_actions ≠ ∅) then Throws NotImplementedException
  else
    let final_locations : gset ProductLocation :=
      foldl (λ final_locations l1,
               foldl (λ final_locations l2, {[(l1, l2)]} ∪ final_locations)
                     final_locations (elements (final_locations_ ta2)))
            ∅ (elements (final_locations_ ta1)) in
    let res :=
      new_TimedAutomaton (alphabet_ ta1 ∪ alphabet_ ta2)
        (initial_location_ ta1, initial_location_ ta2) final_locations in
    let res :=
      foldl (λ res l1,
               foldl (λ res l2, add_location (l1, l2) res) res (elements (locations_ ta2)))
            res (elements (locations_ ta1)) in
    let res := foldl (λ res clock, add_clock clock res) res (elements (clocks_ ta1)) in
    let res := foldl (λ res clock, add_clock clock res) res (elements (clocks_ ta2)) in
    res ← for_each (λ transition,
                      for_each (λ l2, call_add_transition (first_moves transition l2))
                               (elements (locations_ ta2)))
                   (transitions_ ta1) res;
    res ← for_each (λ transition,
                      for_each (λ l1, call_add_transition (second_moves l1 transition))
                               (elements (locations_ ta1)))
                   (transitions_ ta2) res;
    mret res.

(** [operator<] of [std::tuple]. *)
Definition tuple_lt (lt1 : LocationT1 → LocationT1 → bool)
    (lt2 : LocationT2 → LocationT2 → bool) (x y : ProductLocation) : bool :=
  if lt1 x.1 y.1 then true
  else if lt1 y.1 x.1 then false
  else lt2 x.2 y.2.

(** The pairs of two sets, and the two families of interleaving transitions,
    in the order the loops of [get_product] visit them. *)
Definition pairs (X : gset LocationT1) (Y : gset LocationT2) : list ProductLocation :=
  l1 ← elements X; l2 ← elements Y; [(l1, l2)].

Definition first_family (ta1 : TAut1) (ta2 : TAut2) : list (Transition ProductLocation) :=
  transition ← transitions_ ta1; l2 ← elements (locations_ ta2); [first_moves transition l2].

Definition second_family (ta1 : TAut1) (ta2 : TAut2) : list (Transition ProductLocation) :=
  transition ← transitions_ ta2; l1 ← elements (locations_ ta1); [second_moves l1 transition].

Lemma foldl_nested {A B S : Type} (body : A * B → S → S) (xs : list A) (ys : list B) (s : S) :
  foldl (λ s x, foldl (λ s y, body (x, y) s) s ys) s xs
  = foldl (λ s xy, body xy s) s (x ← xs; y ← ys; [(x, y)]).
Proof.
  revert s. induction xs as [|x xs IH]; intros s; [done|]. simpl.
  rewrite foldl_app, IH. f_equal.
  clear. revert s. induction ys as [|y ys IH]; intros s; [done|]. simpl. by rewrite IH.
Qed.

Lemma for_each_nested {E A B C S : Type} (f : A → B → C) (body : C → S → outcome E S)
    (xs : list A) (ys : list B) (s : S) :
  for_each (λ x, for_each (λ y, body (f x y)) ys) xs s
  = for_each body (x ← xs; y ← ys; [f x y]) s.
Proof.
  assert (∀ (l1 l2 : list C) s, for_each body (l1 ++ l2) s
            = s' ← for_each body l1 s; for_each body l2 s') as Happ.
  { induction l1 as [|c l1 IH]; intros l2 s0; [done|]. simpl.
    destruct (body c s0); simpl; [apply IH|done]. }
  revert s. induction xs as [|x xs IH]; intros s; [done|]. simpl.
  rewrite Happ.
  assert (for_each (λ y, body (f x y)) ys s = for_each body (y ← ys; [f x y]) s) as ->.
  { clear. revert s. induction ys as [|y ys IH]; intros s; [done|]. simpl.
    destruct (body (f x y) s); simpl; [apply IH|done]. }
  destruct (for_each body _ s); simpl; [apply IH|done].
Qed.

Lemma elem_of_pairs (X : gset LocationT1) (Y : gset LocationT2) (l : ProductLocation) :
  l ∈ pairs X Y ↔ l.1 ∈ X ∧ l.2 ∈ Y.
Proof.
  unfold pairs. rewrite list_elem_of_bind. destruct l as [l1 l2]. simpl. split.
  - intros (x & (y & Hxy & Hy%elem_of_elements)%list_elem_of_bind & Hx%elem_of_elements).
    apply list_elem_of_singleton in Hxy. by simplify_eq.
  - intros [Hx Hy]. exists l1. split; [|by apply elem_of_elements].
    apply list_elem_of_bind. exists l2. split; [by apply list_elem_of_singleton|].
    by apply elem_of_elements.
Qed.

Lemma call_add_transition_known (transition : Transition ProductLocation)
    (res : ProductTA) :
  mentions_known res transition →
  call_add_transition transition res
  = Returns (mkTA (alphabet_ res) (locations_ res) (initial_location_ res)
                  (final_locations_ res) (clocks_ res) (transitions_ res ++ [transition])).
Proof.
  intros Hknown. unfold call_add_transition.
  destruct (add_transition_cases transition res)
    as [(Hl & _)|[(_ & Hc & _)|(_ & ->)]]; [..|done].
  - destruct Hknown as (? & ? & _). by destruct Hl.
  - by apply unknown_clock_not_mentions_known in Hc.
Qed.

Lemma for_each_call_add_transition (transitions : list (Transition ProductLocation))
    (res : ProductTA) :
  Forall (mentions_known res) transitions →
  for_each call_add_transition transitions res
  = Returns (mkTA (alphabet_ res) (locations_ res) (initial_location_ res)
                  (final_locations_ res) (clocks_ res) (transitions_ res ++ transitions)).
Proof.
  revert res. induction transitions as [|transition transitions IH]; intros res Hall.
  - destruct res. simpl. by rewrite (right_id_L [] (++)).
  - apply Forall_cons in Hall as [Hknown Hall].
    change (for_each call_add_transition (transition :: transitions) res)
      with (res' ← call_add_transition transition res;
            for_each call_add_transition transitions res').
    rewrite call_add_transition_known by done. simpl.
    rewrite IH; simpl; [by rewrite <-(assoc_L (++))|].
    eapply Forall_impl; [done|]. intros ?. by apply mentions_known_mono.
Qed.

Lemma for_each_throws {E A S : Type} (P : E → Prop) (body : A → S → outcome E S)
    (range : list A) (s : S) (e : E) :
  (∀ a s e, body a s = Throws e → P e) →
  for_each body range s = Throws e → P e.
Proof.
  intros Hbody. revert s. induction range as [|a range IH]; intros s; simpl; [done|].
  destruct (body a s) as [s'|e'] eqn:Hbody'; simpl; [apply IH|].
  intros [= <-]. by eapply Hbody.
Qed.

Lemma call_add_transition_throws (transition : Transition ProductLocation)
    (res : ProductTA) (e : exception ProductLocation) :
  call_add_transition transition res = Throws e → e ≠ NotImplementedException.
Proof.
  unfold call_add_transition.
  destruct (add_transition_cases transition res)
    as [(_ & l & ->)|[(_ & _ & c & ->)|(_ & ->)]]; by intros [= <-].
Qed.

(** The automaton [get_product] builds when nothing is synchronized. *)
Definition interleaving (ta1 : TAut1) (ta2 : TAut2) : ProductTA :=
  mkTA (alphabet_ ta1 ∪ alphabet_ ta2)
       (list_to_set (pairs (locations_ ta1) (locations_ ta2)))
       (initial_location_ ta1, initial_location_ ta2)
       (list_to_set (pairs (final_locations_ ta1) (final_locations_ ta2)))
       (clocks_ ta1 ∪ clocks_ ta2)
       (first_family ta1 ta2 ++ second_family ta1 ta2).

Lemma first_family_known (ta1 : TAut1) (ta2 : TAut2) :
  well_formed ta1 → Forall (mentions_known (interleaving ta1 ta2)) (first_family ta1 ta2).
Proof.
  intros [_ _ Hall]. rewrite Forall_forall in Hall. apply Forall_forall.
  intros tr (t1 & (l2 & ->%list_elem_of_singleton & Hl2%elem_of_elements)%list_elem_of_bind
                & Ht1)%list_elem_of_bind.
  destruct (Hall t1 Ht1) as (? & ? & Hg & ?).
  unfold mentions_known. simpl. rewrite !elem_of_list_to_set, !elem_of_pairs. simpl.
  split_and!; [done..| |set_solver].
  eapply Forall_impl; [done|]. set_solver.
Qed.

Lemma second_family_known (ta1 : TAut1) (ta2 : TAut2) :
  well_formed ta2 → Forall (mentions_known (interleaving ta1 ta2)) (second_family ta1 ta2).
Proof.
  intros [_ _ Hall]. rewrite Forall_forall in Hall. apply Forall_forall.
  intros tr (t2 & (l1 & ->%list_elem_of_singleton & Hl1%elem_of_elements)%list_elem_of_bind
                & Ht2)%list_elem_of_bind.
  destruct (Hall t2 Ht2) as (? & ? & Hg & ?).
  unfold mentions_known. simpl. rewrite !elem_of_list_to_set, !elem_of_pairs. simpl.
  split_and!; [done..| |set_solver].
  eapply Forall_impl; [done|]. set_solver.
Qed.

Lemma get_product_unsynchronized (ta1 : TAut1) (ta2 : TAut2) :
  well_formed ta1 → well_formed ta2 →
  get_product ta1 ta2 ∅ = Returns (interleaving ta1 ta2).
Proof.
  intros Hwf1 Hwf2. unfold get_product.
  rewrite bool_decide_eq_false_2 by (by intros ?).
  rewrite for_each_nested.
  rewrite (foldl_nested (λ l final_locations, {[l]} ∪ final_locations)).
  rewrite (foldl_nested (λ l res, add_location l res)).
  fold (pairs (final_locations_ ta1) (final_locations_ ta2)).
  fold (pairs (locations_ ta1) (locations_ ta2)).
  fold (first_family ta1 ta2).
  assert (∀ (l : list ProductLocation) (X : gset ProductLocation),
            foldl (λ s xy, {[xy]} ∪ s) X l = list_to_set l ∪ X) as Hfinal.
  { induction l as [|xy l IH]; intros X; simpl; [set_solver|]. rewrite IH. set_solver. }
  rewrite Hfinal, (right_id_L ∅ (∪)).
  rewrite new_TimedAutomaton_unfold.
  rewrite (foldl_add_location (pairs (locations_ ta1) (locations_ ta2))).
  rewrite !foldl_add_clock. simpl.
  rewrite !list_to_set_elements_L.
  match goal with |- context [for_each _ (first_family ta1 ta2) ?r] =>
    assert (r = mkTA (alphabet_ ta1 ∪ alphabet_ ta2)
                     (list_to_set (pairs (locations_ ta1) (locations_ ta2)))
                     (initial_location_ ta1, initial_location_ ta2)
                     (list_to_set (pairs (final_locations_ ta1) (final_locations_ ta2)))
                     (clocks_ ta1 ∪ clocks_ ta2) []) as ->
  end.
  { destruct Hwf1 as [Hi1 Hf1 _], Hwf2 as [Hi2 Hf2 _]. f_equal; [|set_solver].
    apply set_eq. intros [l1 l2].
    rewrite !elem_of_union, !elem_of_list_to_set, !elem_of_pairs, elem_of_singleton. simpl.
    split; [|tauto]. intros [?|[[? ?]|?]]; [done|set_solver|by simplify_eq]. }
  rewrite for_each_call_add_transition.
  2:{ eapply Forall_impl; [apply (first_family_known ta1 ta2 Hwf1)|].
      intros ?. by apply mentions_known_mono. }
  simpl. rewrite for_each_nested. fold (second_family ta1 ta2).
  rewrite for_each_call_add_transition; [done|].
  eapply Forall_impl; [apply (second_family_known ta1 ta2 Hwf2)|].
  intros ?. by apply mentions_known_mono.
Qed.

Lemma elem_of_first_family (ta1 : TAut1) (ta2 : TAut2) (transition : Transition ProductLocation) :
  transition ∈ first_family ta1 ta2
  ↔ ∃ t1 l2, t1 ∈ transitions_ ta1 ∧ l2 ∈ locations_ ta2 ∧ transition = first_moves t1 l2.
Proof.
  unfold first_family. rewrite list_elem_of_bind. split.
  - intros (t1 & (l2 & ->%list_elem_of_singleton & ?%elem_of_elements)%list_elem_of_bind & ?).
    eauto.
  - intros (t1 & l2 & ? & ? & ->). exists t1. split; [|done].
    apply list_elem_of_bind. exists l2. split; [by apply list_elem_of_singleton|].
    by apply elem_of_elements.
Qed.

Lemma elem_of_second_family (ta1 : TAut1) (ta2 : TAut2) (transition : Transition ProductLocation) :
  transition ∈ second_family ta1 ta2
  ↔ ∃ t2 l1, t2 ∈ transitions_ ta2 ∧ l1 ∈ locations_ ta1 ∧ transition = second_moves l1 t2.
Proof.
  unfold second_family. rewrite list_elem_of_bind. split.
  - intros (t2 & (l1 & ->%list_elem_of_singleton & ?%elem_of_elements)%list_elem_of_bind & ?).
    eauto.
  - intros (t2 & l1 & ? & ? & ->). exists t2. split; [|done].
    apply list_elem_of_bind. exists l1. split; [by apply list_elem_of_singleton|].
    by apply elem_of_elements.
Qed.

Lemma first_moves_fields (transition : Transition ProductLocation)
    (t1 : Transition LocationT1) (l2 : LocationT2) :
  transition = first_moves t1 l2
  ↔ source_ transition = (source_ t1, l2) ∧ target_ transition = (target_ t1, l2)
    ∧ symbol_ transition = symbol_ t1
    ∧ clock_constraints_ transition = clock_constraints_ t1
    ∧ clock_resets_ transition = clock_resets_ t1.
Proof.
  destruct transition. unfold first_moves. simpl. split.
  - by intros [= -> -> -> -> ->].
  - by intros (-> & -> & -> & -> & ->).
Qed.

Lemma second_moves_fields (transition : Transition ProductLocation)
    (l1 : LocationT1) (t2 : Transition LocationT2) :
  transition = second_moves l1 t2
  ↔ source_ transition = (l1, source_ t2) ∧ target_ transition = (l1, target_ t2)
    ∧ symbol_ transition = symbol_ t2
    ∧ clock_constraints_ transition = clock_constraints_ t2
    ∧ clock_resets_ transition = clock_resets_ t2.
Proof.
  destruct transition. unfold second_moves. simpl. split.
  - by intros [= -> -> -> -> ->].
  - by intros (-> & -> & -> & -> & ->).
Qed.

(** C6. [get_product] throws [NotImplementedException] exactly when some
    action is synchronized; otherwise, on automata that satisfy the class
    invariant, it returns the automaton whose locations are the pairs of
    locations, whose alphabet and clocks are the unions, and whose
    transitions are the interleavings: one automaton takes one of its
    transitions, from the source to the target and with the symbol, the
    guard and the resets of that transition, while the other stays in one
    of its locations. *)
Theorem get_product_interleaves (ta1 : TAut1) (ta2 : TAut2)
    (synchronized_actions : gset Symbol) :
  (get_product ta1 ta2 synchronized_actions = Throws NotImplementedException
   ↔ synchronized_actions ≠ ∅)
  ∧ (well_formed ta1 → well_formed ta2 → synchronized_actions = ∅ →
     ∃ res, get_product ta1 ta2 synchronized_actions = Returns res
       ∧ (∀ l1 l2, (l1, l2) ∈ locations_ res ↔ l1 ∈ locations_ ta1 ∧ l2 ∈ locations_ ta2)
       ∧ alphabet_ res = alphabet_ ta1 ∪ alphabet_ ta2
       ∧ clocks_ res = clocks_ ta1 ∪ clocks_ ta2
       ∧ initial_location_ res = (initial_location_ ta1, initial_location_ ta2)
       ∧ (∀ l1 l2, (l1, l2) ∈ final_locations_ res
                   ↔ l1 ∈ final_locations_ ta1 ∧ l2 ∈ final_locations_ ta2)
       ∧ (∀ transition, transition ∈ transitions_ res ↔
            (∃ t1 l2, t1 ∈ transitions_ ta1 ∧ l2 ∈ locations_ ta2
                      ∧ source_ transition = (source_ t1, l2)
                      ∧ target_ transition = (target_ t1, l2)
                      ∧ symbol_ transition = symbol_ t1
                      ∧ clock_constraints_ transition = clock_constraints_ t1
                      ∧ clock_resets_ transition = clock_resets_ t1)
            ∨ (∃ t2 l1, t2 ∈ transitions_ ta2 ∧ l1 ∈ locations_ ta1
                        ∧ source_ transition = (l1, source_ t2)
                        ∧ target_ transition = (l1, target_ t2)
                        ∧ symbol_ transition = symbol_ t2
                        ∧ clock_constraints_ transition = clock_constraints_ t2
                        ∧ clock_resets_ transition = clock_resets_ t2))).
Proof.
  split.
  - unfold get_product. case_bool_decide as Hsync; [done|].
    split; [|done]. intros Hthrows. exfalso.
    assert (∀ {A B : Type} (f : A → B → Transition ProductLocation) xs ys res e,
              for_each (λ x, for_each (λ y, call_add_transition (f x y)) ys) xs res
              = Throws e → e ≠ NotImplementedException) as Hloops.
    { intros A B f xs ys res e.
      apply (for_each_throws (λ e, e ≠ NotImplementedException)). intros x res' e'.
      apply (for_each_throws (λ e, e ≠ NotImplementedException)). intros y res'' e''.
      apply call_add_transition_throws. }
    revert Hthrows.
    match goal with |- context [for_each ?f ?l ?s] =>
      destruct (for_each f l s) as [res|e] eqn:Hfirst end; simpl.
    + match goal with |- context [for_each ?f ?l ?s] =>
        destruct (for_each f l s) as [res'|e] eqn:Hsecond end; simpl; [done|].
      intros [= ->].
      by apply (Hloops _ _ (λ transition l1, second_moves l1 transition) _ _ _ _ Hsecond).
    + intros [= ->]. by apply (Hloops _ _ first_moves _ _ _ _ Hfirst).
  - intros Hwf1 Hwf2 ->. exists (interleaving ta1 ta2).
    split; [by apply get_product_unsynchronized|]. simpl.
    split_and!; try done.
    + intros l1 l2. by rewrite elem_of_list_to_set, elem_of_pairs.
    + intros l1 l2. by rewrite elem_of_list_to_set, elem_of_pairs.
    + intros transition.
      rewrite elem_of_app, elem_of_first_family, elem_of_second_family.
      setoid_rewrite first_moves_fields. setoid_rewrite second_moves_fields. done.
Qed.

(** *** The product with an automaton that has a single location

    Paths of the first automaton are carried over to the product by pairing
    every location with the only location [u] of the second. *)
Definition lift_step (u : LocationT2) (x : Symbol * Time * LocationT1) :
    Symbol * Time * ProductLocation :=
  (x.1.1, x.1.2, (x.2, u)).

Definition lift_path (u : LocationT2) (path : Path LocationT1) : Path ProductLocation :=
  mkPath (lift_step u <$> sequence_ path) (clock_valuations_ path)
         (current_location_ path, u) (tick_ path).

Definition lift_exception (u : LocationT2) (e : exception LocationT1) :
    exception ProductLocation :=
  match e with
  | InvalidLocationException l => InvalidLocationException (l, u)
  | InvalidClockException c => InvalidClockException c
  | out_of_range => out_of_range
  | NotImplementedException => NotImplementedException
  end.

Definition lift_outcome {A B : Type} (u : LocationT2) (f : A → B)
    (o : outcome (exception LocationT1) A) : outcome (exception ProductLocation) B :=
  match o with
  | Returns a => Returns (f a)
  | Throws e => Throws (lift_exception u e)
  end.

(** The product automaton is a copy of the first one. *)
Record copy_of (u : LocationT2) (ta : TAut1) (product : ProductTA) : Prop := {
  copy_initial : initial_location_ product = (initial_location_ ta, u);
  copy_final : ∀ l, (l, u) ∈ final_locations_ product ↔ l ∈ final_locations_ ta;
  copy_clocks : clocks_ product = clocks_ ta;
  copy_transitions :
    transitions_ product = (λ transition, first_moves transition u) <$> transitions_ ta
}.

Section Lifting.
Variable lt1 : LocationT1 → LocationT1 → bool.
Variable lt2 : LocationT2 → LocationT2 → bool.
Variable u : LocationT2.
Hypothesis lt2_irreflexive : lt2 u u = false.

Lemma step_lt_lift (x y : Symbol * Time * LocationT1) :
  step_lt (tuple_lt lt1 lt2) (lift_step u x) (lift_step u y) = step_lt lt1 x y.
Proof using lt2_irreflexive.
  unfold step_lt, tuple_lt, lift_step. simpl.
  repeat case_match; try done; congruence.
Qed.

Lemma sequence_lt_lift (s1 s2 : list (Symbol * Time * LocationT1)) :
  sequence_lt (tuple_lt lt1 lt2) (lift_step u <$> s1) (lift_step u <$> s2)
  = sequence_lt lt1 s1 s2.
Proof using lt2_irreflexive.
  revert s2. induction s1 as [|x s1 IH]; intros [|y s2]; simpl; try done.
  by rewrite !step_lt_lift, IH.
Qed.

Lemma path_lt_lift (p1 p2 : Path LocationT1) :
  path_lt (tuple_lt lt1 lt2) (lift_path u p1) (lift_path u p2) = path_lt lt1 p1 p2.
Proof using lt2_irreflexive. apply sequence_lt_lift. Qed.

Lemma set_insert_lift (path : Path LocationT1) (paths : list (Path LocationT1)) :
  set_insert (tuple_lt lt1 lt2) (lift_path u path) (lift_path u <$> paths)
  = lift_path u <$> set_insert lt1 path paths.
Proof using lt2_irreflexive.
  induction paths as [|p paths IH]; [done|].
  rewrite fmap_cons. cbn [set_insert]. rewrite !path_lt_lift.
  destruct (path_lt lt1 path p); [done|].
  destruct (path_lt lt1 p path); [|done].
  by rewrite fmap_cons, IH.
Qed.

Lemma set_insert_range_lift (new_paths paths : list (Path LocationT1)) :
  set_insert_range (tuple_lt lt1 lt2) (lift_path u <$> new_paths) (lift_path u <$> paths)
  = lift_path u <$> set_insert_range lt1 new_paths paths.
Proof using lt2_irreflexive.
  unfold set_insert_range. revert paths.
  induction new_paths as [|p new_paths IH]; intros paths; [done|].
  rewrite fmap_cons. cbn [foldl]. by rewrite set_insert_lift, IH.
Qed.

Lemma all_satisfied_lift (constraints : list (string * ClockConstraint))
    (clock_vals : gmap string Clock) :
  all_satisfied (LocationT := ProductLocation) constraints clock_vals
  = lift_outcome u id (all_satisfied (LocationT := LocationT1) constraints clock_vals).
Proof.
  induction constraints as [|constraint constraints IH]; simpl; [done|].
  destruct (clock_vals !! constraint.1); [|done]. by destruct (is_satisfied _ _).
Qed.

Lemma is_enabled_lift (transition : Transition LocationT1) (symbol : Symbol)
    (clock_vals : gmap string Clock) :
  is_enabled (first_moves transition u) symbol clock_vals
  = lift_outcome u id (is_enabled transition symbol clock_vals).
Proof.
  unfold is_enabled. simpl. case_bool_decide; [done|]. apply all_satisfied_lift.
Qed.

Lemma take_transition_lift (transition : Transition LocationT1) (symbol : Symbol)
    (time : Time) (path : Path LocationT1) :
  take_transition (first_moves transition u) symbol time (lift_path u path)
  = lift_path u (take_transition transition symbol time path).
Proof. unfold take_transition, lift_path. simpl. by rewrite fmap_app. Qed.

Lemma make_transition_loop_lift (range : list (Transition LocationT1)) (symbol : Symbol)
    (time : Time) (path : Path LocationT1) (paths : list (Path LocationT1)) :
  make_transition_loop (tuple_lt lt1 lt2)
    ((λ transition, first_moves transition u) <$> range) symbol time
    (lift_path u path) (lift_path u <$> paths)
  = lift_outcome u (fmap (lift_path u))
      (make_transition_loop lt1 range symbol time path paths).
Proof using lt2_irreflexive.
  revert path paths. induction range as [|trans range IH]; intros path paths; [done|].
  cbn [fmap list_fmap make_transition_loop].
  change (clock_valuations_ (lift_path u path)) with (clock_valuations_ path).
  rewrite is_enabled_lift.
  destruct (is_enabled trans symbol (clock_valuations_ path)) as [[]|e]; simpl; [| |done].
  - rewrite take_transition_lift, set_insert_lift. apply IH.
  - apply IH.
Qed.

Lemma equal_range_lift (ta : TAut1) (product : ProductTA) (location : LocationT1) :
  copy_of u ta product →
  equal_range product (location, u)
  = (λ transition, first_moves transition u) <$> equal_range ta location.
Proof.
  intros [_ _ _ Htrans]. unfold equal_range. rewrite Htrans. clear Htrans.
  induction (transitions_ ta) as [|trans range IH]; [done|].
  rewrite fmap_cons, !filter_cons, IH. simpl.
  destruct (decide (source_ trans = location)) as [->|Hne].
  - by rewrite decide_True.
  - rewrite decide_False; [done|]. by intros [= ?].
Qed.

Lemma make_transition_lift (ta : TAut1) (product : ProductTA) (path : Path LocationT1)
    (symbol : Symbol) (time : Time) :
  copy_of u ta product →
  make_transition (tuple_lt lt1 lt2) product (lift_path u path) symbol time
  = lift_outcome u (fmap (lift_path u)) (make_transition lt1 ta path symbol time).
Proof using lt2_irreflexive.
  intros Hcopy. unfold make_transition. simpl.
  case_bool_decide; [done|].
  rewrite (equal_range_lift ta) by done.
  apply (make_transition_loop_lift _ _ _ (advance path time) []).
Qed.

Lemma read_symbol_lift (ta : TAut1) (product : ProductTA) (symbol : Symbol) (time : Time)
    (paths : list (Path LocationT1)) :
  copy_of u ta product →
  read_symbol (tuple_lt lt1 lt2) product symbol time (lift_path u <$> paths)
  = lift_outcome u (fmap (lift_path u)) (read_symbol lt1 ta symbol time paths).
Proof using lt2_irreflexive.
  intros Hcopy. unfold read_symbol.
  change (@nil (Path ProductLocation)) with (lift_path u <$> @nil (Path LocationT1)).
  generalize (@nil (Path LocationT1)) as acc.
  induction paths as [|path paths IH]; intros acc; [done|].
  cbn [fmap list_fmap for_each]. rewrite (make_transition_lift ta) by done.
  destruct (make_transition lt1 ta path symbol time) as [new_paths|e]; simpl; [|done].
  rewrite set_insert_range_lift. apply IH.
Qed.

Lemma is_final_lift (ta : TAut1) (product : ProductTA) (path : Path LocationT1) :
  copy_of u ta product → is_final product (lift_path u path) = is_final ta path.
Proof.
  intros [_ Hfinal _ _]. unfold is_final. simpl. apply bool_decide_ext, Hfinal.
Qed.

Lemma accepts_word_from_lift (ta : TAut1) (product : ProductTA) (word : TimedWord)
    (paths : list (Path LocationT1)) :
  copy_of u ta product →
  accepts_word_from (tuple_lt lt1 lt2) product word (lift_path u <$> paths)
  = lift_outcome u id (accepts_word_from lt1 ta word paths).
Proof using lt2_irreflexive.
  intros Hcopy. revert paths.
  induction word as [|[symbol time] word IH]; intros paths.
  - cbn [accepts_word_from lift_outcome id]. f_equal.
    induction paths as [|p paths IHp]; [done|].
    rewrite fmap_cons. cbn [existsb]. by rewrite (is_final_lift ta), IHp.
  - cbn [accepts_word_from]. rewrite (read_symbol_lift ta) by done.
    destruct (read_symbol lt1 ta symbol time paths) as [[|p res]|e]; simpl; [done| |done].
    apply (IH (p :: res)).
Qed.

Lemma accepts_word_lift (ta : TAut1) (product : ProductTA) (word : TimedWord) :
  copy_of u ta product →
  accepts_word (tuple_lt lt1 lt2) product word = lift_outcome u id (accepts_word lt1 ta word).
Proof using lt2_irreflexive.
  intros Hcopy. unfold accepts_word.
  destruct Hcopy as [Hinit Hfinal Hclocks Htrans] eqn:E. rewrite Hinit, Hclocks.
  apply (accepts_word_from_lift ta product word
           [new_Path (initial_location_ ta) (clocks_ ta)]).
  by split.
Qed.

End Lifting.

Lemma interleaving_copy_of (ta : TAut1) (alphabet : gset Symbol) (u : LocationT2) :
  copy_of u ta (interleaving ta (new_TimedAutomaton alphabet u {[u]})).
Proof.
  rewrite new_TimedAutomaton_unfold. unfold interleaving. split; simpl.
  - done.
  - intros l. rewrite elem_of_list_to_set, elem_of_pairs. simpl. set_solver.
  - set_solver.
  - unfold first_family, second_family. simpl.
    rewrite (union_idemp_L {[u]}), elements_singleton, (right_id_L [] (++)).
    induction (transitions_ ta) as [|trans range IH]; [done|].
    rewrite fmap_cons, <-IH. done.
Qed.

(** C7. The product of a timed automaton with an automaton that has a single
    location, which is final, no clocks and no transitions, nothing being
    synchronized, accepts exactly the timed words the automaton accepts. *)
Theorem product_with_single_location (lt1 : LocationT1 → LocationT1 → bool)
    (lt2 : LocationT2 → LocationT2 → bool) (ta : TAut1) (alphabet : gset Symbol)
    (u : LocationT2) :
  well_formed ta → lt2 u u = false →
  ∃ product,
    get_product ta (new_TimedAutomaton alphabet u {[u]}) ∅ = Returns product
    ∧ ∀ word : TimedWord, ∃ b,
        accepts_word (tuple_lt lt1 lt2) product word = Returns b
        ∧ accepts_word lt1 ta word = Returns b.
Proof.
  intros Hwf Hirr. eexists. split.
  { apply get_product_unsynchronized; [done|apply new_TimedAutomaton_well_formed]. }
  intros word. destruct (accepts_word_returns lt1 ta word Hwf) as [b Hb].
  exists b. split; [|done].
  rewrite (accepts_word_lift lt1 lt2 u Hirr ta) by apply interleaving_copy_of.
  by rewrite Hb.
Qed.

End Product.

(** ** Concrete automata over locations named by strings *)
Section Examples.
Open Scope string_scope.

(** An automaton with the single location [s0] and no clock, and a
    transition to the unknown location [s9] that resets the unknown clock [x]. *)
Definition single_location : TimedAutomaton string := new_TimedAutomaton ∅ "s0" ∅.

Definition unknown_target_and_clock : Transition string :=
  mkTransition "s0" "a" "s9" [] {["x"]}.

(** Two transitions from [s0] on [a]: the first resets [x], the second asks
    for [x >= 1]. *)
Definition reset_then_guard : TimedAutomaton string :=
  mkTA {["a"]} {["s0"; "s1"; "s2"]} "s0" {["s1"; "s2"]} {["x"]}
       [mkTransition "s0" "a" "s1" [] {["x"]};
        mkTransition "s0" "a" "s2" [("x", AtomicClockConstraintT greater_equal 1)] ∅].

(** Two transitions from [s0] on [a] without guards or resets. *)
Definition two_targets : TimedAutomaton string :=
  mkTA {["a"]} {["s0"; "s1"; "s2"]} "s0" {["s1"; "s2"]} ∅
       [mkTransition "s0" "a" "s1" [] ∅; mkTransition "s0" "a" "s2" [] ∅].

(** The first transition resets [x], the second asks for [x < 1]. *)
Definition reset_enables_guard : TimedAutomaton string :=
  mkTA {["a"]} {["s0"; "s1"; "s2"]} "s0" {["s1"; "s2"]} {["x"]}
       [mkTransition "s0" "a" "s1" [] {["x"]};
        mkTransition "s0" "a" "s2" [("x", AtomicClockConstraintT less 1)] ∅].

(** What the specification says a step returns: for every transition from
    the current location that is enabled on the advanced valuation, the
    common advanced path with this transition alone applied to it. *)
Definition enabled_outcomes {LocationT : Type} `{Countable LocationT}
    (ta : TimedAutomaton LocationT) (path : Path LocationT) (symbol : Symbol)
    (time : Time) : list (Path LocationT) :=
  let path := advance path time in
  omap (λ trans,
          match is_enabled trans symbol (clock_valuations_ path) with
          | Returns true => Some (take_transition trans symbol time path)
          | _ => None
          end)
       (equal_range ta (current_location_ path)).

(** C5, the claim as stated fails: a reset clock is unknown, yet no
    [InvalidClockException] is thrown, because the unknown target is reported
    first. *)
Lemma add_transition_reports_location_first :
  unknown_clock single_location unknown_target_and_clock
  ∧ (add_transition unknown_target_and_clock single_location).2
    = Throws (InvalidLocationException "s9")
  ∧ ¬ ∃ clock_name, (add_transition unknown_target_and_clock single_location).2
                    = Throws (InvalidClockException clock_name).
Proof.
  assert ((add_transition unknown_target_and_clock single_location).2
          = Throws (InvalidLocationException "s9")) as Hthrows by by_evaluation.
  split_and!; [|done|].
  - right. exists "x". split; by_evaluation.
  - rewrite Hthrows. by intros [c [=]].
Qed.

(** C2, the code at three failing inputs.  On [reset_then_guard] at time 1
    both transitions are enabled on the advanced valuation [x = 1], but the
    second is tested after the first has reset [x] in the loop's own path,
    and no path to [s2] is returned.  On [two_targets] the path returned for
    [s2] carries the step to [s1] in its sequence.  On [reset_enables_guard]
    at time 1 only the first transition is enabled on the advanced valuation,
    but the reset it makes enables the second, and a path to [s2] is
    returned as well. *)
Theorem make_transition_reuses_path :
  make_transition String.ltb reset_then_guard (new_Path "s0" {["x"]}) "a" 1
  = Returns [mkPath [("a", 1, "s1")] {["x" := 0]} "s1" 1]
  ∧ enabled_outcomes reset_then_guard (new_Path "s0" {["x"]}) "a" 1
    = [mkPath [("a", 1, "s1")] {["x" := 0]} "s1" 1;
       mkPath [("a", 1, "s2")] {["x" := 1]} "s2" 1]
  ∧ make_transition String.ltb two_targets (new_Path "s0" ∅) "a" 0
    = Returns [mkPath [("a", 0, "s1")] ∅ "s1" 0;
               mkPath [("a", 0, "s1"); ("a", 0, "s2")] ∅ "s2" 0]
  ∧ enabled_outcomes two_targets (new_Path "s0" ∅) "a" 0
    = [mkPath [("a", 0, "s1")] ∅ "s1" 0; mkPath [("a", 0, "s2")] ∅ "s2" 0]
  ∧ make_transition String.ltb reset_enables_guard (new_Path "s0" {["x"]}) "a" 1
    = Returns [mkPath [("a", 1, "s1")] {["x" := 0]} "s1" 1;
               mkPath [("a", 1, "s1"); ("a", 1, "s2")] {["x" := 0]} "s2" 1]
  ∧ enabled_outcomes reset_enables_guard (new_Path "s0" {["x"]}) "a" 1
    = [mkPath [("a", 1, "s1")] {["x" := 0]} "s1" 1].
Proof. split_and!; by_evaluation. Qed.

Lemma make_transition_rejects_earlier_time_witness :
  make_transition String.ltb two_targets (mkPath [] ∅ "s0" 1) "a" 0 = Returns []
  ∧ accepts_word String.ltb two_targets [("a", 1); ("a", 0)] = Returns false.
Proof.
  split.
  - apply (proj1 (make_transition_rejects_earlier_time String.ltb)). by_evaluation.
  - apply (proj2 (make_transition_rejects_earlier_time String.ltb)).
    + by_evaluation.
    + simpl. left. by_evaluation.
Defined.

Lemma add_transition_validates_witness :
  well_formed two_targets
  ∧ well_formed (add_transition (mkTransition "s1" "b" "s0" [] ∅) two_targets).1.
Proof.
  split.
  - by_evaluation.
  - apply (proj2 (proj2 (proj2 (proj2 (proj2
             (add_transition_validates (mkTransition "s1" "b" "s0" [] ∅) two_targets)))))).
    by_evaluation.
Defined.

Lemma get_product_interleaves_witness :
  well_formed reset_then_guard ∧ well_formed two_targets
  ∧ ∃ res, get_product reset_then_guard two_targets ∅ = Returns res
      ∧ (∀ l1 l2, (l1, l2) ∈ locations_ res
                  ↔ l1 ∈ locations_ reset_then_guard ∧ l2 ∈ locations_ two_targets)
      ∧ alphabet_ res = alphabet_ reset_then_guard ∪ alphabet_ two_targets
      ∧ clocks_ res = clocks_ reset_then_guard ∪ clocks_ two_targets
      ∧ initial_location_ res
        = (initial_location_ reset_then_guard, initial_location_ two_targets)
      ∧ (∀ l1 l2, (l1, l2) ∈ final_locations_ res
                  ↔ l1 ∈ final_locations_ reset_then_guard
                    ∧ l2 ∈ final_locations_ two_targets)
      ∧ (∀ transition, transition ∈ transitions_ res ↔
           (∃ t1 l2, t1 ∈ transitions_ reset_then_guard ∧ l2 ∈ locations_ two_targets
                     ∧ source_ transition = (source_ t1, l2)
                     ∧ target_ transition = (target_ t1, l2)
                     ∧ symbol_ transition = symbol_ t1
                     ∧ clock_constraints_ transition = clock_constraints_ t1
                     ∧ clock_resets_ transition = clock_resets_ t1)
           ∨ (∃ t2 l1, t2 ∈ transitions_ two_targets ∧ l1 ∈ locations_ reset_then_guard
                       ∧ source_ transition = (l1, source_ t2)
                       ∧ target_ transition = (l1, target_ t2)
                       ∧ symbol_ transition = symbol_ t2
                       ∧ clock_constraints_ transition = clock_constraints_ t2
                       ∧ clock_resets_ transition = clock_resets_ t2)).
Proof.
  assert (well_formed reset_then_guard) as Hwf1 by by_evaluation.
  assert (well_formed two_targets) as Hwf2 by by_evaluation.
  split; [exact Hwf1|]. split; [exact Hwf2|].
  exact (proj2 (get_product_interleaves reset_then_guard two_targets ∅) Hwf1 Hwf2 eq_refl).
Defined.

Lemma product_with_single_location_witness :
  ∃ product,
    get_product reset_then_guard (new_TimedAutomaton ∅ "t" {["t"]}) ∅ = Returns product
    ∧ ∀ word : TimedWord, ∃ b,
        accepts_word (tuple_lt String.ltb String.ltb) product word = Returns b
        ∧ accepts_word String.ltb reset_then_guard word = Returns b.
Proof.
  apply (product_with_single_location String.ltb String.ltb reset_then_guard ∅ "t").
  - by_evaluation.
  - reflexivity.
Defined.

End Examples.
End TA.

(** * Formulas of alternating timed automata ([ata_formula.h])

    Modelled from the spec: [ata_formula.h] (the classes [Formula],
    [TrueFormula], ..., [State] and their [get_minimal_models]) is missing;
    only its test [test_ata_formula.cpp] is given.  The model follows the
    laws of the specification, section 4.C.  What the test requires of
    disjunctions is kept beside the model, as the data the test states. *)
Module ATAFormula.

Inductive Formula (LocationT : Type) : Type :=
| TrueFormula
| FalseFormula
| LocationFormula (location : LocationT)
| ClockConstraintFormula (constraint : ClockConstraint)
| ConjunctionFormula (conjunct1 conjunct2 : Formula LocationT)
| DisjunctionFormula (disjunct1 disjunct2 : Formula LocationT)
| ResetClockFormula (sub_formula : Formula LocationT).
Arguments TrueFormula {LocationT}.
Arguments FalseFormula {LocationT}.
Arguments LocationFormula {LocationT} location.
Arguments ClockConstraintFormula {LocationT} constraint.
Arguments ConjunctionFormula {LocationT} conjunct1 conjunct2.
Arguments DisjunctionFormula {LocationT} disjunct1 disjunct2.
Arguments ResetClockFormula {LocationT} sub_formula.

Section Models.
Context {LocationT : Type} `{Countable LocationT}.

(** [State<LocationT>]: a location and the value of its clock. *)
Abbreviation State := (LocationT * Time)%type.
Abbreviation Model := (gset (LocationT * Time)).

(** The subset-minimal members of a family of sets of states. *)
Definition minimal_elements (models : gset Model) : gset Model :=
  filter (λ model, set_Forall (λ other, ¬ other ⊂ model) models) models.

(** All unions of a member of the first family with one of the second. *)
Definition pairwise_unions (models1 models2 : gset Model) : gset Model :=
  set_bind (λ model1, set_map (λ model2, model1 ∪ model2) models2) models1.

(** Modelled from the spec: [Formula::get_minimal_models] of the missing
    [ata_formula.h], by the laws of section 4.C; a conjunction and a
    disjunction keep the subset-minimal members only. *)
Fixpoint get_minimal_models (formula : Formula LocationT) (v : Time) : gset Model :=
  match formula with
  | TrueFormula => {[ ∅ ]}
  | FalseFormula => ∅
  | LocationFormula location => {[ {[ (location, v) ]} ]}
  | ClockConstraintFormula constraint =>
    if is_satisfied constraint v then {[ ∅ ]} else ∅
  | ConjunctionFormula conjunct1 conjunct2 =>
    minimal_elements
      (pairwise_unions (get_minimal_models conjunct1 v) (get_minimal_models conjunct2 v))
  | DisjunctionFormula disjunct1 disjunct2 =>
    minimal_elements (get_minimal_models disjunct1 v ∪ get_minimal_models disjunct2 v)
  | ResetClockFormula sub_formula => get_minimal_models sub_formula 0
  end.

Lemma elem_of_minimal_elements (models : gset Model) (model : Model) :
  model ∈ minimal_elements models
  ↔ model ∈ models ∧ ∀ other, other ∈ models → ¬ other ⊂ model.
Proof. unfold minimal_elements. rewrite elem_of_filter. unfold set_Forall. tauto. Qed.

Lemma minimal_elements_subseteq (models : gset Model) :
  minimal_elements models ⊆ models.
Proof. intros model. rewrite elem_of_minimal_elements. tauto. Qed.

(** Every member of a family includes a subset-minimal member of it. *)
Lemma minimal_elements_below (models : gset Model) (model : Model) :
  model ∈ models → ∃ least, least ∈ minimal_elements models ∧ least ⊆ model.
Proof.
  induction (set_wf model) as [model _ IH]. intros Hin.
  destruct (decide (set_Forall (λ other, ¬ other ⊂ model) models)) as [Hmin|Hnot].
  - exists model. split; [|done]. by apply elem_of_minimal_elements.
  - apply not_set_Forall_Exists in Hnot; [|apply _].
    destruct Hnot as (other & Hother & Hlt). simpl in Hlt. apply dec_stable in Hlt.
    destruct (IH other Hlt Hother) as (least & Hleast & Hsub).
    exists least. split; [done|]. set_solver.
Qed.

End Models.

(** ** The test cases of [test_ata_formula.cpp] on minimal models *)
Section Tests.
Open Scope string_scope.

Abbreviation s0 := (LocationFormula "s0").
Abbreviation s1 := (LocationFormula "s1").

(** [TEST_CASE("Minimal models of ATA atomic formulas")]. *)
Example minimal_models_of_atomic_formulas :
  get_minimal_models (LocationT := string) TrueFormula (Q2Qc 2) = {[ ∅ ]}
  ∧ get_minimal_models (LocationT := string) FalseFormula (Q2Qc 2) = ∅
  ∧ get_minimal_models s0 0 = {[ {[ ("s0", 0) ]} ]}
  ∧ get_minimal_models s0 1 = {[ {[ ("s0", 1) ]} ]}
  ∧ get_minimal_models (ResetClockFormula s0) 1 = {[ {[ ("s0", 0) ]} ]}.
Proof. split_and!; by_evaluation. Qed.

(** [TEST_CASE("Minimal models of ATA conjunction formulas")]. *)
Example minimal_models_of_conjunction_formulas :
  get_minimal_models (ConjunctionFormula s0 s1) 0 = {[ {[ ("s0", 0); ("s1", 0) ]} ]}
  ∧ get_minimal_models (ConjunctionFormula s0 s1) 1 = {[ {[ ("s0", 1); ("s1", 1) ]} ]}
  ∧ get_minimal_models (LocationT := string)
      (ConjunctionFormula TrueFormula FalseFormula) 0 = ∅
  ∧ get_minimal_models (ConjunctionFormula s0 TrueFormula) 0 = {[ {[ ("s0", 0) ]} ]}
  ∧ get_minimal_models (ConjunctionFormula s0 TrueFormula) 1 = {[ {[ ("s0", 1) ]} ]}
  ∧ get_minimal_models (ConjunctionFormula s0 FalseFormula) 0 = ∅
  ∧ get_minimal_models (ConjunctionFormula s0 FalseFormula) 1 = ∅
  ∧ get_minimal_models (ConjunctionFormula s0 (ResetClockFormula s1)) 1
    = {[ {[ ("s0", 1); ("s1", 0) ]} ]}.
Proof. split_and!; by_evaluation. Qed.






End Tests.
End ATAFormula.

(** * Alternating timed automata ([ata.h]) *)
Module ATA.
Import ATAFormula.

(** The two exceptions of [ata.h]; [assertion_failed] stands for the abort
    of a failing [assert], which only a build without [NDEBUG] performs. *)
Inductive exception : Type :=
| WrongTransitionTypeException
| NegativeTimeDeltaException (time_delta : Time)
| assertion_failed.

#[global] Instance exception_eq_dec : EqDecision exception.
Proof. solve_decision. Defined.

(** [class Transition]. *)
Record Transition (LocationT : Type) : Type := mkTransition {
  source_ : LocationT;
  symbol_ : Symbol;
  formula_ : Formula LocationT
}.
Arguments mkTransition {LocationT}.
Arguments source_ {LocationT}.
Arguments symbol_ {LocationT}.
Arguments formula_ {LocationT}.

(** [class AlternatingTimedAutomaton].  [transitions_] is a
    [std::set<Transition>], kept here as the list of its elements in the
    order the set iterates them. *)
Record AlternatingTimedAutomaton (LocationT : Type) `{Countable LocationT} : Type := mkATA {
  alphabet_ : gset Symbol;
  initial_location_ : LocationT;
  final_locations_ : gset LocationT;
  transitions_ : list (Transition LocationT)
}.
Arguments mkATA {LocationT _ _}.
Arguments alphabet_ {LocationT _ _}.
Arguments initial_location_ {LocationT _ _}.
Arguments final_locations_ {LocationT _ _}.
Arguments transitions_ {LocationT _ _}.

Section Automaton.
Context {LocationT : Type} `{Countable LocationT}.

(** [Formula::get_minimal_models], the virtual method the automaton calls
    on the formula of a transition. *)
Variable formula_get_minimal_models : Formula LocationT → Time → gset (gset (LocationT * Time)).

(** Whether [assert] is compiled out. *)
Variable NDEBUG : bool.

Abbreviation Configuration := (gset (LocationT * Time)).
Abbreviation Step := (Symbol + Time)%type.
Abbreviation Run := (list ((Symbol + Time) * gset (LocationT * Time))).
Abbreviation ATAut := (AlternatingTimedAutomaton LocationT).

Definition get_minimal_models (formula : Formula LocationT) (v : Time) :
    gset Configuration :=
  formula_get_minimal_models formula v.

(** [!run.empty() && std::holds_alternative<Symbol>(run.back().first)], and
    the same for [Time]. *)
Definition ends_with_symbol (run : Run) : bool :=
  match last run with
  | Some (inl _, _) => true
  | _ => false
  end.

Definition ends_with_time (run : Run) : bool :=
  match last run with
  | Some (inr _, _) => true
  | _ => false
  end.

Definition start_states (ata : ATAut) (run : Run) : Configuration :=
  match last run with
  | None => {[ (initial_location_ ata, 0) ]}
  | Some (_, configuration) => configuration
  end.

(** The [std::find_if] over [transitions_]. *)
Definition find_transition (ata : ATAut) (location : LocationT) (symbol : Symbol) :
    option (Transition LocationT) :=
  find (λ t, bool_decide (source_ t = location ∧ symbol_ t = symbol)) (transitions_ ata).

(** The vector [models]: one entry for each start state that has a
    transition on [symbol]. *)
Definition models_of (ata : ATAut) (symbol : Symbol) (states : list (LocationT * Time)) :
    list (gset Configuration) :=
  omap (λ state,
          t ← find_transition ata state.1 symbol;
          Some (get_minimal_models (formula_ t) state.2))
       states.

(** One round of the second [for_each]: every configuration reached so far
    is extended by every model of the next state. *)
Definition expand (configurations state_models : gset Configuration) : gset Configuration :=
  set_bind (λ state_model,
              set_map (λ configuration, configuration ∪ state_model) configurations)
           state_models.

(** The loop over [runs].  [configurations] starts as the models of the
    first start state ([models[0]], whose members are inserted one by one)
    and is expanded by the models of the others.  The runs are pushed in the
    order the set of configurations is walked, here that of [elements]. *)
Fixpoint make_symbol_transition_loop (ata : ATAut) (runs : list Run) (symbol : Symbol)
    (res : list Run) : outcome exception (list Run) :=
  match runs with
  | [] => Returns res
  | run :: runs' =>
    if ends_with_symbol run then Throws WrongTransitionTypeException
    else
      match models_of ata symbol (elements (start_states ata run)) with
      | [] => if NDEBUG then Returns [] else Throws assertion_failed
      | models0 :: models' =>
        let configurations := foldl expand models0 models' in
        make_symbol_transition_loop ata runs' symbol
          (res ++ ((λ c, run ++ [(inl symbol, c)]) <$> elements configurations))
      end
  end.

Definition make_symbol_transition (ata : ATAut) (runs : list Run) (symbol : Symbol) :
    outcome exception (list Run) :=
  make_symbol_transition_loop ata runs symbol [].

(** The [std::transform] of [make_time_transition]. *)
Definition add_time (time : Time) (configuration : Configuration) : Configuration :=
  set_map (λ s : LocationT * Time, (s.1, s.2 + time)) configuration.

Definition last_configuration (run : Run) : Configuration :=
  match last run with
  | Some (_, configuration) => configuration
  | None => ∅
  end.

Fixpoint make_time_transition_loop (runs : list Run) (time : Time) (res : list Run) :
    outcome exception (list Run) :=
  match runs with
  | [] => Returns res
  | run :: runs' =>
    match run with
    | [] => Throws WrongTransitionTypeException
    | _ =>
      if ends_with_time run then Throws WrongTransitionTypeException
      else
        make_time_transition_loop runs' time
          (res ++ [run ++ [(inr time, add_time time (last_configuration run))]])
    end
  end.

Definition make_time_transition (ata : ATAut) (runs : list Run) (time : Time) :
    outcome exception (list Run) :=
  if bool_decide (time < 0) then Throws (NegativeTimeDeltaException time)
  else make_time_transition_loop runs time [].

(** The final test of [accepts_word] on one run. *)
Definition is_accepting (ata : ATAut) (run : Run) : bool :=
  bool_decide (set_Forall (λ state : LocationT * Time, state.1 ∈ final_locations_ ata)
                          (last_configuration run)).

(** The [std::for_each] over the rest of the word; its state is [runs] and
    [last_time]. *)
Definition read_rest (ata : ATAut) (timed_symbol : Symbol * Time)
    (state : list Run * Time) : outcome exception (list Run * Time) :=
  runs ← make_time_transition ata state.1 (timed_symbol.2 - state.2);
  runs ← make_symbol_transition ata runs timed_symbol.1;
  mret (runs, timed_symbol.2).

Definition accepts_word (ata : ATAut) (word : TimedWord) : outcome exception bool :=
  match word with
  | [] => Returns false
  | (symbol, time) :: word' =>
    runs ← make_symbol_transition ata [[]] symbol;
    state ← for_each (read_rest ata) word' (runs, time);
    mret (existsb (is_accepting ata) state.1)
  end.

(** *** Alternation of symbol and time steps *)

Definition is_symbol (step : Step) : bool :=
  match step with
  | inl _ => true
  | inr _ => false
  end.

(** No two neighbouring steps of [run] are of the same kind. *)
Fixpoint alternating (run : Run) : Prop :=
  match run with
  | [] => True
  | step1 :: run' =>
    match run' with
    | [] => True
    | step2 :: _ => is_symbol step1.1 ≠ is_symbol step2.1 ∧ alternating run'
    end
  end.

(** Some start state of [run] has a transition on [symbol]. *)
Definition has_transition (ata : ATAut) (symbol : Symbol) (run : Run) : Prop :=
  ∃ state, state ∈ start_states ata run ∧ is_Some (find_transition ata state.1 symbol).

(** The vectors of runs the two operations produce, starting from the single
    empty run [accepts_word] starts from. *)
Inductive produced (ata : ATAut) : list Run → Prop :=
| produced_initial : produced ata [[]]
| produced_symbol (runs : list Run) (symbol : Symbol) (res : list Run) :
    produced ata runs → make_symbol_transition ata runs symbol = Returns res →
    produced ata res
| produced_time (runs : list Run) (time : Time) (res : list Run) :
    produced ata runs → make_time_transition ata runs time = Returns res →
    produced ata res.

Lemma models_of_nil (ata : ATAut) (symbol : Symbol) (states : list (LocationT * Time)) :
  models_of ata symbol states = []
  ↔ ∀ state, state ∈ states → find_transition ata state.1 symbol = None.
Proof.
  unfold models_of. induction states as [|state states IH]; simpl.
  - split; [|done]. by intros _ ? ?%elem_of_nil.
  - destruct (find_transition ata state.1 symbol) as [t|] eqn:Hfind; simpl.
    + split; [done|]. intros Hall. specialize (Hall state). rewrite Hfind in Hall.
      by discriminate Hall; left.
    + rewrite IH. split.
      * intros Hall state' [->|?]%elem_of_cons; auto.
      * intros Hall state' ?. apply Hall. by right.
Qed.

Lemma has_transition_models (ata : ATAut) (symbol : Symbol) (run : Run) :
  has_transition ata symbol run
  ↔ models_of ata symbol (elements (start_states ata run)) ≠ [].
Proof.
  rewrite models_of_nil. unfold has_transition. split.
  - intros (state & Hin & [t Ht]) Hall.
    rewrite Hall in Ht by by apply elem_of_elements. done.
  - intros Hnot. apply dec_stable. intros Hnone. apply Hnot.
    intros state Hin%elem_of_elements.
    destruct (find_transition ata state.1 symbol) eqn:Hfind; [|done].
    destruct Hnone. exists state. by rewrite Hfind.
Qed.

Lemma symbol_loop_throws (ata : ATAut) (runs : list Run) (symbol : Symbol) (res : list Run) :
  make_symbol_transition_loop ata runs symbol res = Throws WrongTransitionTypeException →
  Exists (λ run, ends_with_symbol run = true) runs.
Proof.
  revert res. induction runs as [|run runs IH]; intros res; simpl; [done|].
  destruct (ends_with_symbol run) eqn:Hends; [by left|].
  destruct (models_of _ _ _); [by destruct NDEBUG|].
  intros ?. right. by eapply IH.
Qed.

Lemma symbol_loop_reaches (ata : ATAut) (runs : list Run) (symbol : Symbol) (res : list Run) :
  Forall (λ run, ends_with_symbol run = true ∨ has_transition ata symbol run) runs →
  Exists (λ run, ends_with_symbol run = true) runs →
  make_symbol_transition_loop ata runs symbol res = Throws WrongTransitionTypeException.
Proof.
  revert res. induction runs as [|run runs IH]; intros res Hall Hex; simpl.
  { by apply Exists_nil in Hex. }
  apply Forall_cons in Hall as [Hrun Hall].
  destruct (ends_with_symbol run) eqn:Hends; [done|].
  destruct Hrun as [?|Hrun%has_transition_models]; [done|].
  destruct (models_of _ _ _); [done|].
  apply IH; [done|]. apply Exists_cons in Hex as [?|?]; [congruence|done].
Qed.

Lemma time_loop_throws (runs : list Run) (time : Time) (res : list Run) :
  make_time_transition_loop runs time res = Throws WrongTransitionTypeException
  ↔ Exists (λ run, run = [] ∨ ends_with_time run = true) runs.
Proof.
  revert res. induction runs as [|run runs IH]; intros res; simpl.
  { split; [done|]. by intros ?%Exists_nil. }
  rewrite Exists_cons. destruct run as [|step run]; [naive_solver|].
  destruct (ends_with_time (step :: run)) eqn:Hends; [naive_solver|].
  rewrite IH. naive_solver.
Qed.

Lemma time_loop_outcome (runs : list Run) (time : Time) (res : list Run) (e : exception) :
  make_time_transition_loop runs time res = Throws e → e = WrongTransitionTypeException.
Proof.
  revert res. induction runs as [|run runs IH]; intros res; simpl; [done|].
  destruct run as [|step run]; [by intros [= <-]|].
  destruct (ends_with_time (step :: run)); [by intros [= <-]|]. apply IH.
Qed.

Lemma alternating_snoc (run : Run) (step : Step * Configuration) :
  alternating run →
  match last run with
  | Some previous => is_symbol previous.1 ≠ is_symbol step.1
  | None => True
  end →
  alternating (run ++ [step]).
Proof.
  induction run as [|step1 run IH]; [done|].
  destruct run as [|step2 run]; simpl.
  - intros _ ?. done.
  - intros [? Halt] Hlast. split; [done|]. by apply IH.
Qed.

Lemma symbol_loop_alternating (ata : ATAut) (runs : list Run) (symbol : Symbol)
    (acc res : list Run) :
  Forall alternating runs → Forall alternating acc →
  make_symbol_transition_loop ata runs symbol acc = Returns res →
  Forall alternating res.
Proof.
  revert acc. induction runs as [|run runs IH]; intros acc Hruns Hacc; simpl.
  { by intros [= <-]. }
  apply Forall_cons in Hruns as [Hrun Hruns].
  destruct (ends_with_symbol run) eqn:Hends; [done|].
  destruct (models_of _ _ _) as [|models0 models'].
  { destruct NDEBUG; [|done]. by intros [= <-]. }
  apply IH; [done|]. apply Forall_app. split; [done|].
  apply Forall_fmap, Forall_forall. intros c _. simpl.
  apply alternating_snoc; [done|]. unfold ends_with_symbol in Hends.
  destruct (last run) as [[[?|?] ?]|]; simpl; done.
Qed.

Lemma time_loop_alternating (runs : list Run) (time : Time) (acc res : list Run) :
  Forall alternating runs → Forall alternating acc →
  make_time_transition_loop runs time acc = Returns res →
  Forall alternating res.
Proof.
  revert acc. induction runs as [|run runs IH]; intros acc Hruns Hacc; simpl.
  { by intros [= <-]. }
  apply Forall_cons in Hruns as [Hrun Hruns].
  destruct run as [|step run]; [done|].
  destruct (ends_with_time (step :: run)) eqn:Hends; [done|].
  apply IH; [done|]. apply Forall_app. split; [done|]. apply Forall_singleton.
  apply alternating_snoc; [done|]. unfold ends_with_time in Hends.
  destruct (last (step :: run)) as [[[?|?] ?]|]; simpl; done.
Qed.

Lemma produced_alternating (ata : ATAut) (runs : list Run) :
  produced ata runs → Forall alternating runs.
Proof.
  induction 1 as [|runs symbol res _ IH Hres|runs time res _ IH Hres].
  - by apply Forall_singleton.
  - by apply (symbol_loop_alternating ata runs symbol [] res).
  - unfold make_time_transition in Hres. case_bool_decide; [done|].
    by apply (time_loop_alternating runs time [] res).
Qed.

(** C9. [accepts_word] answers [false] on the empty timed word, whatever the
    automaton; so also when its initial location is final, which is exactly
    when the start states of the empty run all lie in final locations. *)
Theorem accepts_word_rejects_empty_word (ata : ATAut) :
  accepts_word ata [] = Returns false
  ∧ (set_Forall (λ state : LocationT * Time, state.1 ∈ final_locations_ ata)
                (start_states ata [])
     ↔ initial_location_ ata ∈ final_locations_ ata).
Proof.
  split; [reflexivity|].
  change (start_states ata []) with ({[ (initial_location_ ata, 0) ]} : Configuration).
  unfold set_Forall. split.
  - intros Hall. apply (Hall (initial_location_ ata, 0)). by apply elem_of_singleton.
  - intros Hfinal state ->%elem_of_singleton. done.
Qed.

(** C4, as amended.  [make_symbol_transition] throws
    [WrongTransitionTypeException] only when a given run ends with a symbol
    step, and always does so when such a run is given and every other given
    run has a start state with a transition on the symbol.
    [make_time_transition] throws [NegativeTimeDeltaException] exactly when
    the time delta is negative; when it is not, it throws
    [WrongTransitionTypeException] exactly when a given run is empty or ends
    with a time step.  No run produced by the two operations from the empty
    run has two neighbouring steps of the same kind. *)
Theorem runs_alternate (ata : ATAut) :
  (∀ runs symbol,
     make_symbol_transition ata runs symbol = Throws WrongTransitionTypeException →
     Exists (λ run, ends_with_symbol run = true) runs)
  ∧ (∀ runs symbol,
       Forall (λ run, ends_with_symbol run = true ∨ has_transition ata symbol run) runs →
       Exists (λ run, ends_with_symbol run = true) runs →
       make_symbol_transition ata runs symbol = Throws WrongTransitionTypeException)
  ∧ (∀ runs time,
       (time < 0 → make_time_transition ata runs time
                   = Throws (NegativeTimeDeltaException time))
       ∧ ((∃ time_delta, make_time_transition ata runs time
                         = Throws (NegativeTimeDeltaException time_delta))
          → time < 0))
  ∧ (∀ runs time,
       ¬ time < 0 →
       (make_time_transition ata runs time = Throws WrongTransitionTypeException
        ↔ Exists (λ run, run = [] ∨ ends_with_time run = true) runs))
  ∧ (∀ runs, produced ata runs → Forall alternating runs).
Proof.
  split_and!.
  - intros runs symbol. apply symbol_loop_throws.
  - intros runs symbol. apply symbol_loop_reaches.
  - intros runs time. unfold make_time_transition. split.
    + intros Hneg. by rewrite bool_decide_eq_true_2.
    + intros [d Hthrows]. case_bool_decide; [done|].
      by apply time_loop_outcome in Hthrows.
  - intros runs time Hpos. unfold make_time_transition.
    rewrite bool_decide_eq_false_2 by done. apply time_loop_throws.
  - apply produced_alternating.
Qed.

(** *** What a symbol step and a time step compute *)

(** [Δ(q, a)]: the formula of the transition [find_transition] selects. *)
Definition delta (ata : ATAut) (location : LocationT) (symbol : Symbol) :
    option (Formula LocationT) :=
  formula_ <$> find_transition ata location symbol.

(** [configuration] is a union of one model of [Δ(q, a)] at [v] for every
    state [(q, v)] of [states] that has a transition on [symbol]. *)
Definition symbol_successor (ata : ATAut) (states : Configuration) (symbol : Symbol)
    (configuration : Configuration) : Prop :=
  ∃ choice : LocationT * Time → Configuration,
    (∀ state formula,
       state ∈ states → delta ata state.1 symbol = Some formula →
       choice state ∈ get_minimal_models formula state.2)
    ∧ ∀ x, x ∈ configuration
           ↔ ∃ state formula,
               state ∈ states ∧ delta ata state.1 symbol = Some formula ∧ x ∈ choice state.

(** The states among [states] that have a transition, with its formula. *)
Definition enabled_states (ata : ATAut) (symbol : Symbol) (states : list (LocationT * Time)) :
    list ((LocationT * Time) * Formula LocationT) :=
  omap (λ state, (λ formula, (state, formula)) <$> delta ata state.1 symbol) states.

Lemma models_of_enabled_states (ata : ATAut) (symbol : Symbol)
    (states : list (LocationT * Time)) :
  models_of ata symbol states
  = (λ sf, get_minimal_models sf.2 sf.1.2) <$> enabled_states ata symbol states.
Proof.
  unfold models_of, enabled_states, delta.
  induction states as [|state states IH]; [done|]. csimpl.
  destruct (find_transition ata state.1 symbol); csimpl; by rewrite IH.
Qed.

Lemma elem_of_enabled_states (ata : ATAut) (symbol : Symbol)
    (states : list (LocationT * Time)) (state : LocationT * Time)
    (formula : Formula LocationT) :
  (state, formula) ∈ enabled_states ata symbol states
  ↔ state ∈ states ∧ delta ata state.1 symbol = Some formula.
Proof.
  unfold enabled_states. rewrite list_elem_of_omap. split.
  - intros (state' & Hin & Hsome).
    destruct (delta ata state'.1 symbol) eqn:Hdelta; simplify_eq/=. done.
  - intros [Hin Hdelta]. exists state. by rewrite Hdelta.
Qed.

Lemma enabled_states_NoDup (ata : ATAut) (symbol : Symbol)
    (states : list (LocationT * Time)) :
  NoDup states → NoDup (enabled_states ata symbol states).*1.
Proof.
  unfold enabled_states. induction 1 as [|state states Hnotin Hnodup IH]; simpl.
  { constructor. }
  destruct (delta ata state.1 symbol) as [formula|] eqn:Hdelta; simpl; [|done].
  constructor; [|done]. intros ((state' & formula') & -> & Hin)%list_elem_of_fmap.
  apply (elem_of_enabled_states ata symbol states) in Hin as [? _]. done.
Qed.

Lemma elem_of_expand (configurations state_models : gset Configuration)
    (c : Configuration) :
  c ∈ expand configurations state_models
  ↔ ∃ configuration state_model,
      configuration ∈ configurations ∧ state_model ∈ state_models
      ∧ c = configuration ∪ state_model.
Proof.
  unfold expand. rewrite elem_of_set_bind. setoid_rewrite elem_of_map. naive_solver.
Qed.

Lemma elem_of_foldl_expand (models : list (gset Configuration))
    (models0 : gset Configuration) (c : Configuration) :
  c ∈ foldl expand models0 models
  ↔ ∃ picks, Forall2 (λ pick state_models, pick ∈ state_models) picks (models0 :: models)
             ∧ c = ⋃ picks.
Proof.
  revert models0 c. induction models as [|models1 models IH]; intros models0 c; simpl.
  - split.
    + intros Hc. exists [c]. split; [by repeat constructor|].
      simpl. by rewrite (right_id_L ∅ (∪)).
    + intros (picks & Hpicks & ->).
      apply Forall2_cons_inv_r in Hpicks as (pick & picks' & Hpick & ->%Forall2_nil_inv_r & ->).
      simpl. by rewrite (right_id_L ∅ (∪)).
  - rewrite IH. split.
    + intros (picks & Hpicks & ->).
      apply Forall2_cons_inv_r in Hpicks as (pick & picks' & Hpick & Hpicks' & ->).
      apply elem_of_expand in Hpick as (pick0 & pick1 & ? & ? & ->).
      exists (pick0 :: pick1 :: picks'). split; [by repeat constructor|].
      simpl. by rewrite (assoc_L (∪)).
    + intros (picks & Hpicks & ->).
      apply Forall2_cons_inv_r in Hpicks as (pick0 & picks' & ? & Hpicks' & ->).
      apply Forall2_cons_inv_r in Hpicks' as (pick1 & picks'' & ? & Hpicks'' & ->).
      exists ((pick0 ∪ pick1) :: picks''). split.
      * constructor; [|done]. apply elem_of_expand. eauto.
      * simpl. by rewrite (assoc_L (∪)).
Qed.

Lemma elem_of_choice_union (choice : LocationT * Time → Configuration)
    (enabled : list ((LocationT * Time) * Formula LocationT)) (x : LocationT * Time) :
  x ∈ ⋃ (choice <$> enabled.*1)
  ↔ ∃ state formula, (state, formula) ∈ enabled ∧ x ∈ choice state.
Proof.
  rewrite elem_of_union_list. split.
  - intros (X & HX & Hx). apply list_elem_of_fmap in HX as (state & -> & Hstate).
    apply list_elem_of_fmap in Hstate as ([state' formula] & -> & Hin). eauto.
  - intros (state & formula & Hin & Hx). exists (choice state). split; [|done].
    apply list_elem_of_fmap. exists state. split; [done|].
    apply list_elem_of_fmap. by exists (state, formula).
Qed.

(** Picking one model per enabled state is choosing a model by a function
    of the state, since no state occurs twice. *)
Lemma picks_choice (enabled : list ((LocationT * Time) * Formula LocationT))
    (c : Configuration) :
  NoDup enabled.*1 →
  (∃ picks,
     Forall2 (λ pick sf, pick ∈ get_minimal_models sf.2 sf.1.2) picks enabled
     ∧ c = ⋃ picks)
  ↔ (∃ choice : LocationT * Time → Configuration,
       (∀ state formula, (state, formula) ∈ enabled →
                         choice state ∈ get_minimal_models formula state.2)
       ∧ ∀ x, x ∈ c ↔ ∃ state formula, (state, formula) ∈ enabled ∧ x ∈ choice state).
Proof.
  revert c. induction enabled as [|[state formula] enabled IH]; intros c Hnodup.
  - split.
    + intros (picks & ->%Forall2_nil_inv_r & ->). exists (λ _, ∅).
      split; [by intros ? ? ?%elem_of_nil|]. intros x. simpl. split; [set_solver|].
      by intros (? & ? & ?%elem_of_nil & _).
    + intros (choice & _ & Hc). exists []. split; [constructor|]. simpl.
      apply set_eq. intros x. rewrite Hc. split; [|set_solver].
      by intros (? & ? & ?%elem_of_nil & _).
  - rewrite fmap_cons in Hnodup. apply NoDup_cons in Hnodup as [Hnotin Hnodup]. split.
    + intros (picks & Hpicks & ->).
      apply Forall2_cons_inv_r in Hpicks as (pick & picks' & Hpick & Hpicks' & ->).
      destruct (proj1 (IH (⋃ picks') Hnodup)) as (choice & Hchoice & Hunion); [by eauto|].
      exists (λ state', if decide (state' = state) then pick else choice state').
      split.
      * intros state' formula' [[= -> ->]|Hin]%elem_of_cons.
        -- by rewrite decide_True.
        -- rewrite decide_False; [by apply Hchoice|].
           intros ->. apply Hnotin, list_elem_of_fmap. by exists (state, formula').
      * intros x. simpl. rewrite elem_of_union, Hunion. split.
        -- intros [Hx|(state' & formula' & Hin & Hx)].
           ++ exists state, formula. split; [by left|]. by rewrite decide_True.
           ++ exists state', formula'. split; [by right|]. rewrite decide_False; [done|].
              intros ->. apply Hnotin, list_elem_of_fmap. by exists (state, formula').
        -- intros (state' & formula' & [[= -> ->]|Hin]%elem_of_cons & Hx).
           ++ left. by rewrite decide_True in Hx.
           ++ right. exists state', formula'. split; [done|].
              rewrite decide_False in Hx; [done|].
              intros ->. apply Hnotin, list_elem_of_fmap. by exists (state, formula').
    + intros (choice & Hchoice & Hc).
      destruct (proj2 (IH (⋃ (choice <$> enabled.*1)) Hnodup)) as (picks & Hpicks & Hunion).
      { exists choice. split; [intros ? ? ?; apply Hchoice; by right|].
        intros x. apply elem_of_choice_union. }
      exists (choice state :: picks). split.
      * constructor; [|done]. apply Hchoice. by left.
      * simpl. rewrite <-Hunion. apply set_eq. intros x.
        rewrite Hc, elem_of_union, elem_of_choice_union. split.
        -- intros (state' & formula' & [[= -> ->]|Hin]%elem_of_cons & Hx); [by left|].
           right. eauto.
        -- intros [Hx|(state' & formula' & Hin & Hx)].
           ++ exists state, formula. split; [by left|done].
           ++ exists state', formula'. split; [by right|done].
Qed.

Lemma configurations_are_successors (ata : ATAut) (symbol : Symbol) (states : Configuration)
    (models0 : gset Configuration) (models' : list (gset Configuration))
    (c : Configuration) :
  models_of ata symbol (elements states) = models0 :: models' →
  c ∈ foldl expand models0 models' ↔ symbol_successor ata states symbol c.
Proof.
  intros Hmodels. rewrite elem_of_foldl_expand, <-Hmodels, models_of_enabled_states.
  setoid_rewrite Forall2_fmap_r.
  rewrite picks_choice by apply enabled_states_NoDup, NoDup_elements.
  unfold symbol_successor.
  assert (∀ state formula,
            (state, formula) ∈ enabled_states ata symbol (elements states)
            ↔ state ∈ states ∧ delta ata state.1 symbol = Some formula) as Henabled.
  { intros state formula. by rewrite elem_of_enabled_states, elem_of_elements. }
  split; intros (choice & Hchoice & Hc); exists choice; split.
  - intros state formula ? ?. apply Hchoice, Henabled. done.
  - intros x. rewrite Hc. by setoid_rewrite Henabled; setoid_rewrite (assoc (∧)).
  - intros state formula [? ?]%Henabled. by apply Hchoice.
  - intros x. rewrite Hc. by setoid_rewrite Henabled; setoid_rewrite (assoc (∧)).
Qed.

Lemma symbol_loop_returns (ata : ATAut) (runs : list Run) (symbol : Symbol) (acc : list Run) :
  Forall (λ run, ends_with_symbol run = false ∧ has_transition ata symbol run) runs →
  ∃ res, make_symbol_transition_loop ata runs symbol acc = Returns res
    ∧ ∀ r, r ∈ res
           ↔ r ∈ acc
             ∨ ∃ run c, run ∈ runs ∧ symbol_successor ata (start_states ata run) symbol c
                        ∧ r = run ++ [(inl symbol, c)].
Proof.
  revert acc. induction runs as [|run runs IH]; intros acc Hall; simpl.
  { eexists. split; [done|]. intros r. split; [by left|].
    by intros [?|(? & ? & ?%elem_of_nil & _)]. }
  apply Forall_cons in Hall as [[-> Hrun%has_transition_models] Hall].
  destruct (models_of ata symbol (elements (start_states ata run)))
    as [|models0 models'] eqn:Hmodels; [done|].
  destruct (IH (acc ++ ((λ c, run ++ [(inl symbol, c)])
                        <$> elements (foldl expand models0 models'))) Hall)
    as (res & -> & Hres).
  exists res. split; [done|]. intros r. rewrite Hres, elem_of_app, list_elem_of_fmap.
  setoid_rewrite elem_of_elements.
  setoid_rewrite (configurations_are_successors ata symbol _ _ _ _ Hmodels).
  setoid_rewrite elem_of_cons. naive_solver.
Qed.

Lemma time_loop_returns (runs : list Run) (time : Time) (acc : list Run) :
  Forall (λ run, run ≠ [] ∧ ends_with_time run = false) runs →
  make_time_transition_loop runs time acc
  = Returns (acc ++ ((λ run, run ++ [(inr time, add_time time (last_configuration run))])
                     <$> runs)).
Proof.
  revert acc. induction runs as [|run runs IH]; intros acc Hall; simpl.
  { by rewrite (right_id_L [] (++)). }
  apply Forall_cons in Hall as [[Hne Hends] Hall].
  destruct run as [|step run]; [done|]. rewrite Hends.
  rewrite IH by done. by rewrite <-(assoc_L (++)).
Qed.

Lemma elem_of_add_time (time : Time) (configuration : Configuration)
    (location : LocationT) (v : Time) :
  (location, v) ∈ add_time time configuration
  ↔ ∃ v0, (location, v0) ∈ configuration ∧ v = v0 + time.
Proof.
  unfold add_time. rewrite elem_of_map. split.
  - intros ([location' v0] & [= -> ->] & Hin). eauto.
  - intros (v0 & Hin & ->). by exists (location, v0).
Qed.

(** C1, as amended.  A symbol step from the last configuration of a run
    produces exactly the unions of one minimal model of [Δ(q, a)] at [v] for
    each of its states [(q, v)] that has a transition on the symbol, every
    such union, whether another one is included in it or not.  When every
    given run is empty or ends with a time step and has such a state,
    [make_symbol_transition] returns the given runs extended by precisely
    these configurations.  A time step extends every run by its last
    configuration with the delta added to the clock of every state. *)
Theorem steps_of_a_run (ata : ATAut) :
  (∀ runs symbol,
     Forall (λ run, ends_with_symbol run = false ∧ has_transition ata symbol run) runs →
     ∃ res, make_symbol_transition ata runs symbol = Returns res
       ∧ ∀ r, r ∈ res
              ↔ ∃ run c, run ∈ runs
                         ∧ symbol_successor ata (start_states ata run) symbol c
                         ∧ r = run ++ [(inl symbol, c)])
  ∧ (∀ runs time,
       ¬ time < 0 → Forall (λ run, run ≠ [] ∧ ends_with_time run = false) runs →
       make_time_transition ata runs time
       = Returns ((λ run, run ++ [(inr time, add_time time (last_configuration run))])
                  <$> runs))
  ∧ (∀ time configuration location v,
       (location, v) ∈ add_time time configuration
       ↔ ∃ v0, (location, v0) ∈ configuration ∧ v = v0 + time).
Proof.
  split_and!.
  - intros runs symbol Hall.
    destruct (symbol_loop_returns ata runs symbol [] Hall) as (res & Hres & Hspec).
    exists res. split; [done|]. intros r. rewrite Hspec. split; [|by right].
    by intros [?%elem_of_nil|?].
  - intros runs time Hpos Hall. unfold make_time_transition.
    rewrite bool_decide_eq_false_2 by done. by rewrite time_loop_returns.
  - apply elem_of_add_time.
Qed.

(** What the specification states of a symbol step: the subset-minimal
    models among those of the formulas [Δ(q, a)] at [v], for the states
    [(q, v)] of the configuration, that is, the models of their disjunction. *)
Definition disjunction_models (ata : ATAut) (states : Configuration) (symbol : Symbol) :
    gset Configuration :=
  minimal_elements (⋃ models_of ata symbol (elements states)).

End Automaton.

(** ** Concrete automata over locations named by strings *)
Section Examples.
Open Scope string_scope.

(** From [q0] the symbol [a] leads to [q0 ∧ q1], from [q1] to [q1]. *)
Definition spawning : AlternatingTimedAutomaton string :=
  mkATA {["a"]} "q0" {["q0"; "q1"]}
        [mkTransition "q0" "a"
           (ConjunctionFormula (LocationFormula "q0") (LocationFormula "q1"));
         mkTransition "q1" "a" (LocationFormula "q1")].

(** An automaton without transitions. *)
Definition stuck : AlternatingTimedAutomaton string := mkATA {["a"]} "q0" {["q0"]} [].

Definition after_a : list ((Symbol + Time) * gset (string * Time)) :=
  [(inl "a", {[ ("q0", 0); ("q1", 0) ]})].

Definition after_a_1 : list ((Symbol + Time) * gset (string * Time)) :=
  after_a ++ [(inr 1, {[ ("q0", 1); ("q1", 1) ]})].

(** C1, the claim as stated fails.  Reading [a], waiting 1 and reading [a]
    again, [spawning] reaches [{(q0, 1), (q1, 1)}] and from there the same
    configuration, the union of a model of [q0 ∧ q1] and one of [q1]; the
    only minimal model of the disjunction of the two formulas is
    [{(q1, 1)}]. *)
Lemma symbol_step_is_not_a_disjunction :
  (∀ NDEBUG,
     make_symbol_transition ATAFormula.get_minimal_models NDEBUG spawning [[]] "a"
     = Returns [after_a])
  ∧ make_time_transition spawning [after_a] 1 = Returns [after_a_1]
  ∧ (∀ NDEBUG,
       make_symbol_transition ATAFormula.get_minimal_models NDEBUG spawning [after_a_1] "a"
       = Returns [(after_a_1 ++ [(inl "a", {[ ("q0", 1); ("q1", 1) ]})])%list])
  ∧ disjunction_models ATAFormula.get_minimal_models spawning
      {[ ("q0", 1); ("q1", 1) ]} "a"
    = {[ {[ ("q1", 1) ]} ]}
  ∧ ({[ ("q0", 1); ("q1", 1) ]} : gset (string * Time))
    ∉ disjunction_models ATAFormula.get_minimal_models spawning
        {[ ("q0", 1); ("q1", 1) ]} "a".
Proof.
  split_and!; [intros []; by_evaluation|by_evaluation|intros []; by_evaluation
             |by_evaluation..].
Qed.

(** C4, the claim as stated fails twice.  A run that ends with a symbol
    step is given, but [make_symbol_transition] leaves the loop at the run
    before it, which has no state with a transition: it returns no runs, or
    aborts on the assertion.  And an empty run is given to
    [make_time_transition], but the negative delta is reported first. *)
Lemma wrong_transition_type_not_thrown :
  Exists (λ run, ends_with_symbol run = true)
         ([[]; [(inl "a", ∅)]] : list (list ((Symbol + Time) * gset (string * Time))))
  ∧ make_symbol_transition ATAFormula.get_minimal_models true stuck
      [[]; [(inl "a", ∅)]] "a" = Returns []
  ∧ make_symbol_transition ATAFormula.get_minimal_models false stuck
      [[]; [(inl "a", ∅)]] "a" = Throws assertion_failed
  ∧ make_time_transition stuck [[]] (- 1) = Throws (NegativeTimeDeltaException (- 1)).
Proof. split_and!; by_evaluation. Qed.

(** As [spawning] on [a]; the symbol [b] leads from [q0] to [q0 ∨ q1] and
    from [q1] to [q1]. *)
Definition choosy : AlternatingTimedAutomaton string :=
  mkATA {["a"; "b"]} "q0" {["q0"; "q1"]}
        [mkTransition "q0" "a"
           (ConjunctionFormula (LocationFormula "q0") (LocationFormula "q1"));
         mkTransition "q0" "b"
           (DisjunctionFormula (LocationFormula "q0") (LocationFormula "q1"));
         mkTransition "q1" "b" (LocationFormula "q1")].

(** The successors of a symbol step are not filtered: having read [a] and
    waited 0, [choosy] goes on [b] from [{(q0, 0), (q1, 0)}] to [{(q1, 0)}]
    and to [{(q0, 0), (q1, 0)}], which includes the former. *)
Example successors_are_not_filtered :
  ∀ NDEBUG,
    make_symbol_transition ATAFormula.get_minimal_models NDEBUG choosy
      [(after_a ++ [(inr 0, {[ ("q0", 0); ("q1", 0) ]})])%list] "b"
    = Returns [(after_a ++ [(inr 0, {[ ("q0", 0); ("q1", 0) ]});
                            (inl "b", {[ ("q1", 0) ]})])%list;
               (after_a ++ [(inr 0, {[ ("q0", 0); ("q1", 0) ]});
                            (inl "b", {[ ("q0", 0); ("q1", 0) ]})])%list].
Proof. intros []; by_evaluation. Qed.

Lemma steps_of_a_run_witness :
  ∃ res,
    make_symbol_transition ATAFormula.get_minimal_models true spawning [[]] "a" = Returns res
    ∧ ∀ r, r ∈ res
           ↔ ∃ run c, run ∈ [[]]
                      ∧ symbol_successor ATAFormula.get_minimal_models spawning
                          (start_states spawning run) "a" c
                      ∧ r = (run ++ [(inl "a", c)])%list.
Proof.
  apply (proj1 (steps_of_a_run ATAFormula.get_minimal_models true spawning)).
  apply Forall_singleton. split; [reflexivity|].
  exists ("q0", 0). split; by_evaluation.
Defined.

Lemma runs_alternate_witness :
  make_symbol_transition ATAFormula.get_minimal_models true spawning [after_a] "a"
  = Throws WrongTransitionTypeException
  ∧ (make_time_transition spawning [after_a_1] 1 = Throws WrongTransitionTypeException
     ↔ Exists (λ run, run = [] ∨ ends_with_time run = true) [after_a_1]).
Proof.
  split.
  - apply (proj1 (proj2 (runs_alternate ATAFormula.get_minimal_models true spawning))).
    + apply Forall_singleton. left. reflexivity.
    + apply Exists_cons_hd. reflexivity.
  - apply (proj1 (proj2 (proj2 (proj2
             (runs_alternate ATAFormula.get_minimal_models true spawning))))).
    by_evaluation.
Defined.

End Examples.
End ATA.

(** * The Golog program handle ([golog_program.cpp]) *)
Module Golog.
#[local] Open Scope nat_scope.

(** The standard exceptions the constructor throws; [gologpp_error] stands
    for whatever the parser of the Golog++ library throws on a program it
    cannot read. *)
Inductive exception : Type :=
| runtime_error
| invalid_argument
| logic_error
| gologpp_error.

#[global] Instance exception_eq_dec : EqDecision exception.
Proof. solve_decision. Defined.

(** The state of the process the class acts on: its static member
    [initialized], how often [ReadylogContext::init] and
    [ReadylogContext::shutdown] have been called, and the number of
    [GologProgram] objects alive. *)
Record Process : Type := mkProcess {
  initialized : bool;
  context_inits : nat;
  context_shutdowns : nat;
  instances : nat
}.

#[global] Instance Process_eq_dec : EqDecision Process.
Proof. solve_decision. Defined.

(** [bool GologProgram::initialized = false;] *)
Definition process_start : Process := mkProcess false 0 0 0.

Section Program.
(** The Golog++ library is not part of the repository; what the constructor
    observes of it is whether the program text parses, whether the parsed
    program declares a procedure [main], and whether the two actions the
    constructor declares itself are found afterwards. *)
Variable parses : string → bool.
Variable declares_main : string → bool.
Variable env_terminate_found : bool.
Variable ctl_terminate_found : bool.

(** [GologProgram::GologProgram]: the process after the call, and whether an
    object was constructed.  An object whose constructor throws never comes
    to life, and its destructor does not run. *)
Definition construct (program : string) (p : Process) : Process * outcome exception () :=
  if initialized p then (p, Throws runtime_error)
  else
    let p := mkProcess true (context_inits p) (context_shutdowns p) (instances p) in
    let p := mkProcess (initialized p) (S (context_inits p)) (context_shutdowns p)
                       (instances p) in
    if negb (parses program) then (p, Throws gologpp_error)
    else if negb (declares_main program) then (p, Throws invalid_argument)
    else if negb env_terminate_found then (p, Throws logic_error)
    else if negb ctl_terminate_found then (p, Throws logic_error)
    else (mkProcess (initialized p) (context_inits p) (context_shutdowns p)
                    (S (instances p)),
          Returns ()).

(** [GologProgram::~GologProgram], run on a living object. *)
Definition destroy (p : Process) : Process :=
  mkProcess false (context_inits p) (S (context_shutdowns p)) (pred (instances p)).

(** The processes a program can get into by constructing and destroying
    [GologProgram] objects. *)
Inductive reachable : Process → Prop :=
| reachable_start : reachable process_start
| reachable_construct (program : string) (p : Process) :
    reachable p → reachable (construct program p).1
| reachable_destroy (p : Process) :
    reachable p → 0 < instances p → reachable (destroy p).

(** A program the constructor accepts. *)
Definition acceptable (program : string) : Prop :=
  parses program = true ∧ declares_main program = true
  ∧ env_terminate_found = true ∧ ctl_terminate_found = true.

Lemma construct_cases (program : string) (p : Process) :
  (initialized p = true ∧ construct program p = (p, Throws runtime_error))
  ∨ (initialized p = false
     ∧ ((acceptable program
         ∧ construct program p
           = (mkProcess true (S (context_inits p)) (context_shutdowns p) (S (instances p)),
              Returns ()))
        ∨ (¬ acceptable program
           ∧ ∃ e, construct program p
                  = (mkProcess true (S (context_inits p)) (context_shutdowns p) (instances p),
                     Throws e)))).
Proof.
  unfold construct, acceptable. destruct (initialized p); [by left|]. right. split; [done|].
  destruct (parses program), (declares_main program), env_terminate_found,
    ctl_terminate_found; simpl; try (right; split; [naive_solver|by eexists]).
  by left.
Qed.

(** A living object holds the flag, and there is never more than one. *)
Lemma reachable_exclusive (p : Process) :
  reachable p → instances p ≤ 1 ∧ (0 < instances p → initialized p = true).
Proof.
  induction 1 as [|program p _ [IH1 IH2]|p _ [IH1 IH2] Hlive].
  - simpl. split; [lia|]. lia.
  - destruct (construct_cases program p) as [[Hinit ->]|[Hinit [[_ ->]|[_ [e ->]]]]]; simpl.
    + done.
    + split; [|done]. destruct (instances p) as [|n]; [lia|].
      rewrite IH2 in Hinit by lia. done.
    + split; [done|]. done.
  - simpl. split; [lia|]. intros ?. lia.
Qed.

(** C8. At most one [GologProgram] object is alive at any time; while one is
    alive, constructing another throws and changes nothing in the process,
    so that nothing is initialized; and once the living object is destroyed,
    constructing from a program the constructor accepts succeeds. *)
Theorem at_most_one_instance (p : Process) :
  reachable p →
  instances p ≤ 1
  ∧ (0 < instances p →
     (∀ program, construct program p = (p, Throws runtime_error))
     ∧ (∀ program, acceptable program →
          (construct program (destroy p)).2 = Returns ()
          ∧ instances (construct program (destroy p)).1 = 1
          ∧ reachable (construct program (destroy p)).1)).
Proof.
  intros Hreach. destruct (reachable_exclusive p Hreach) as [Hone Hflag].
  split; [done|]. intros Hlive. split.
  - intros program. unfold construct. by rewrite Hflag.
  - intros program Hok.
    destruct (construct_cases program (destroy p))
      as [[Hinit _]|[_ [[_ Heq]|[Hnot _]]]]; [done| |done].
    split_and!.
    + by rewrite Heq.
    + rewrite Heq. simpl. lia.
    + apply reachable_construct. by apply reachable_destroy.
Qed.

End Program.

Section Examples.
Open Scope string_scope.

Lemma at_most_one_instance_witness :
  reachable (λ _, true) (λ _, true) true true (mkProcess true 1 0 1)
  ∧ construct (λ _, true) (λ _, true) true true "procedure main() {}" (mkProcess true 1 0 1)
    = (mkProcess true 1 0 1, Throws runtime_error)
  ∧ (construct (λ _, true) (λ _, true) true true "procedure main() {}"
       (destroy (mkProcess true 1 0 1))).2 = Returns ().
Proof.
  assert (reachable (λ _, true) (λ _, true) true true (mkProcess true 1 0 1)) as Hreach.
  { apply (reachable_construct (λ _, true) (λ _, true) true true "procedure main() {}"
             process_start).
    apply reachable_start. }
  destruct (at_most_one_instance (λ _, true) (λ _, true) true true _ Hreach)
    as [_ Hlive].
  destruct (Hlive ltac:(simpl; lia)) as [Hthrows Hagain].
  split; [exact Hreach|]. split; [apply Hthrows|].
  apply Hagain. by repeat split.
Defined.

End Examples.
End Golog.

(** * Further properties of timed automata ([ta.h], [ta_product.hpp]) *)
Module TAProperties.
Import TA.

Section Automaton.
Context {LocationT : Type} `{Countable LocationT}.

Abbreviation TAut := (TimedAutomaton LocationT).
Abbreviation Trans := (Transition LocationT).
Abbreviation PathT := (Path LocationT).

(** The automata that can be built through the public interface of the
    class: the constructor followed by any calls of [add_location],
    [add_locations], [add_clock] and [add_transition] (whether the latter
    throws or not). *)
Inductive constructible : TAut → Prop :=
| constructible_new (alphabet : gset Symbol) (initial_location : LocationT)
    (final_locations : gset LocationT) :
    constructible (new_TimedAutomaton alphabet initial_location final_locations)
| constructible_add_location (location : LocationT) (ta : TAut) :
    constructible ta → constructible (add_location location ta)
| constructible_add_locations (locations : gset LocationT) (ta : TAut) :
    constructible ta → constructible (add_locations locations ta)
| constructible_add_clock (name : string) (ta : TAut) :
    constructible ta → constructible (add_clock name ta)
| constructible_add_transition (transition : Trans) (ta : TAut) :
    constructible ta → constructible (add_transition transition ta).1.

Lemma add_locations_well_formed (locations : gset LocationT) (ta : TAut) :
  well_formed ta → well_formed (add_locations locations ta).
Proof. rewrite add_locations_unfold. apply well_formed_mono; simpl; set_solver. Qed.

Lemma constructible_invariant (ta : TAut) : constructible ta → well_formed ta.
Proof.
  induction 1.
  - apply new_TimedAutomaton_well_formed.
  - by apply add_location_well_formed.
  - by apply add_locations_well_formed.
  - by apply add_clock_well_formed.
  - by apply add_transition_well_formed.
Qed.

(** X1. Every automaton built through the public interface satisfies the
    class invariant: the initial and the final locations are locations, and
    every stored transition mentions only known locations and clocks. *)
Theorem constructible_well_formed (ta : TAut) :
  constructible ta → well_formed ta.
Proof. apply constructible_invariant. Qed.

(** A constraint of a guard holds on a valuation that knows its clock. *)
Definition holds_on (clock_vals : gmap string Clock) (constraint : string * ClockConstraint) :
    Prop :=
  ∃ clock, clock_vals !! constraint.1 = Some clock
           ∧ is_satisfied constraint.2 (get_valuation clock) = true.

Lemma all_satisfied_true (constraints : list (string * ClockConstraint))
    (clock_vals : gmap string Clock) :
  all_satisfied (LocationT := LocationT) constraints clock_vals = Returns true
  ↔ Forall (holds_on clock_vals) constraints.
Proof.
  induction constraints as [|constraint constraints IH]; simpl.
  - split; [constructor|done].
  - rewrite Forall_cons. unfold holds_on at 1.
    destruct (clock_vals !! constraint.1) as [clock|].
    + destruct (is_satisfied constraint.2 (get_valuation clock)) eqn:Hsat.
      * rewrite IH. split; [|tauto]. intros ?. split; [|done]. by exists clock.
      * split; [done|]. intros [(clock' & [= <-] & Hsat') _]. congruence.
    + split; [done|]. by intros [(clock' & [=] & _) _].
Qed.

Lemma all_satisfied_throws (constraints : list (string * ClockConstraint))
    (clock_vals : gmap string Clock) :
  (∃ e, all_satisfied (LocationT := LocationT) constraints clock_vals = Throws e)
  ↔ ∃ before constraint after,
      constraints = before ++ constraint :: after
      ∧ Forall (holds_on clock_vals) before
      ∧ clock_vals !! constraint.1 = None.
Proof.
  induction constraints as [|constraint constraints IH]; simpl.
  - split; [by intros [? ?]|]. by intros ([|? ?] & ? & ? & ? & _).
  - destruct (clock_vals !! constraint.1) as [clock|] eqn:Hclock.
    + destruct (is_satisfied constraint.2 (get_valuation clock)) eqn:Hsat.
      * rewrite IH. split.
        -- intros (before & c & after & -> & Hbefore & Hnone).
           exists (constraint :: before), c, after. split_and!; [done| |done].
           constructor; [|done]. by exists clock.
        -- intros ([|c0 before] & c & after & Heq & Hbefore & Hnone); simplify_eq/=.
           apply Forall_cons in Hbefore as [_ Hbefore]. eauto 6.
      * split; [by intros [? ?]|].
        intros ([|c0 before] & c & after & Heq & Hbefore & Hnone); simplify_eq/=.
        apply Forall_cons in Hbefore as [(clock' & Hclock' & Hsat') _]. congruence.
    + split; [|by eexists].
      intros _. exists [], constraint, constraints. by split_and!.
Qed.

(** X2. [is_enabled] answers [true] exactly when the symbol is the
    transition's and every constraint of the guard holds on a clock the
    valuation knows.  It throws (the [std::out_of_range] of [at]) exactly
    when the symbol is the transition's and the guard reaches a constraint on
    a clock the valuation does not know, all constraints before it holding;
    a different symbol or an earlier failing constraint hides the missing
    clock. *)
Theorem is_enabled_outcomes (transition : Trans) (symbol : Symbol)
    (clock_vals : gmap string Clock) :
  (is_enabled transition symbol clock_vals = Returns true
   ↔ symbol = symbol_ transition
     ∧ Forall (holds_on clock_vals) (clock_constraints_ transition))
  ∧ ((∃ e, is_enabled transition symbol clock_vals = Throws e)
     ↔ is_enabled transition symbol clock_vals = Throws out_of_range)
  ∧ (is_enabled transition symbol clock_vals = Throws out_of_range
     ↔ symbol = symbol_ transition
       ∧ ∃ before constraint after,
           clock_constraints_ transition = before ++ constraint :: after
           ∧ Forall (holds_on clock_vals) before
           ∧ clock_vals !! constraint.1 = None).
Proof.
  assert (∀ constraints e,
            all_satisfied (LocationT := LocationT) constraints clock_vals = Throws e →
            e = out_of_range) as Hkind.
  { induction constraints as [|c constraints IH]; intros e; simpl; [done|].
    destruct (clock_vals !! c.1); [|by intros [= <-]].
    destruct (is_satisfied _ _); [apply IH|done]. }
  unfold is_enabled. case_bool_decide as Hsymbol.
  - split_and!; split; try done; try naive_solver.
  - split_and!.
    + rewrite all_satisfied_true. tauto.
    + split; [|by eexists]. intros [e He]. by rewrite He, (Hkind _ _ He).
    + rewrite <-all_satisfied_throws. split.
      * intros He. split; [done|]. by eexists.
      * intros [_ [e He]]. by rewrite He, (Hkind _ _ He).
Qed.

Section Ordered.
Variable location_lt : LocationT → LocationT → bool.

(** X3. On an automaton built through the public interface [accepts_word]
    always returns an answer: the [at] of [is_enabled] never throws, because
    every path carries all clocks of the automaton and guards mention only
    those. *)
Theorem accepts_word_never_throws (ta : TAut) (word : TimedWord) :
  constructible ta → ∃ b, accepts_word location_lt ta word = Returns b.
Proof. intros Hta. by apply accepts_word_returns, constructible_invariant. Qed.

(** At most one transition from [location] reads [symbol]. *)
Definition at_most_one_reads (ta : TAut) (location : LocationT) (symbol : Symbol) : Prop :=
  (length (filter (λ trans, symbol_ trans = symbol) (equal_range ta location)) ≤ 1)%nat.

Lemma is_enabled_other_symbol (trans : Trans) (symbol : Symbol)
    (clock_vals : gmap string Clock) :
  symbol_ trans ≠ symbol → is_enabled trans symbol clock_vals = Returns false.
Proof. intros Hne. unfold is_enabled. by rewrite bool_decide_eq_true_2 by done. Qed.

Lemma loop_without_reader (range : list Trans) (symbol : Symbol) (time : Time)
    (path : PathT) (paths : list PathT) :
  filter (λ trans, symbol_ trans = symbol) range = [] →
  make_transition_loop location_lt range symbol time path paths = Returns paths
  ∧ omap (λ trans,
            match is_enabled trans symbol (clock_valuations_ path) with
            | Returns true => Some (take_transition trans symbol time path)
            | _ => None
            end) range = [].
Proof.
  induction range as [|trans range IH]; [done|].
  rewrite filter_cons. case_decide as Hsymbol; [done|]. intros Hrest.
  cbn [make_transition_loop omap list_omap].
  rewrite is_enabled_other_symbol by done. simpl. by apply IH.
Qed.

Lemma loop_with_one_reader (ta : TAut) (range : list Trans) (symbol : Symbol)
    (time : Time) (path : PathT) :
  Forall (mentions_known ta) range → clocks_ ta ⊆ dom (clock_valuations_ path) →
  (length (filter (λ trans, symbol_ trans = symbol) range) ≤ 1)%nat →
  make_transition_loop location_lt range symbol time path []
  = Returns (omap (λ trans,
                     match is_enabled trans symbol (clock_valuations_ path) with
                     | Returns true => Some (take_transition trans symbol time path)
                     | _ => None
                     end) range).
Proof.
  intros Hknown Hdom. induction Hknown as [|trans range Htrans Hknown IH]; [done|].
  rewrite filter_cons. cbn [make_transition_loop omap list_omap].
  case_decide as Hsymbol.
  - simpl. intros Hone.
    assert (filter (λ trans, symbol_ trans = symbol) range = []) as Hnone.
    { destruct (filter _ range); [done|simpl in Hone; lia]. }
    destruct (is_enabled_returns ta trans symbol (clock_valuations_ path) Htrans Hdom)
      as [[] ->]; simpl.
    + destruct (loop_without_reader range symbol time
                  (take_transition trans symbol time path)
                  [take_transition trans symbol time path] Hnone) as [-> _].
      destruct (loop_without_reader range symbol time path [] Hnone) as [_ ->]. done.
    + destruct (loop_without_reader range symbol time path [] Hnone) as [-> ->]. done.
  - intros Hone. rewrite is_enabled_other_symbol by done. simpl. by apply IH.
Qed.

(** X4. Where at most one transition from the current location reads the
    symbol, as in a deterministic automaton, [make_transition] returns
    exactly the enabled outcome, if any: the advanced path with that
    transition applied. *)
Theorem make_transition_single_reader (ta : TAut) (path : PathT) (symbol : Symbol)
    (time : Time) :
  well_formed ta → clocks_ ta ⊆ dom (clock_valuations_ path) →
  ¬ time < tick_ path →
  at_most_one_reads ta (current_location_ path) symbol →
  make_transition location_lt ta path symbol time
  = Returns (enabled_outcomes ta path symbol time).
Proof.
  intros [_ _ Hall] Hdom Htime Hone. unfold make_transition, enabled_outcomes.
  rewrite bool_decide_eq_false_2 by done. cbn zeta.
  apply (loop_with_one_reader ta); [|by simpl; rewrite dom_fmap_L|done].
  unfold equal_range. clear Hone. induction Hall as [|trans range ? ? IH]; [done|].
  rewrite filter_cons. case_decide; [by constructor|done].
Qed.

(** A step [make_transition] may append to the sequence of [path]: it
    carries the symbol and the time read, and the target of a transition
    that leaves the location of [path] on this symbol. *)
Definition step_of (ta : TAut) (path : PathT) (symbol : Symbol) (time : Time)
    (step : Symbol * Time * LocationT) : Prop :=
  step.1 = (symbol, time)
  ∧ ∃ trans, trans ∈ transitions_ ta ∧ source_ trans = current_location_ path
             ∧ symbol_ trans = symbol ∧ target_ trans = step.2.

(** The sequence of [p] extends that of [path] by [steps]. *)
Definition extends_by (ta : TAut) (path : PathT) (symbol : Symbol) (time : Time)
    (steps : list (Symbol * Time * LocationT)) (p : PathT) : Prop :=
  tick_ p = time
  ∧ sequence_ p = sequence_ path ++ steps
  ∧ Forall (step_of ta path symbol time) steps.

Definition returned_from (ta : TAut) (path : PathT) (symbol : Symbol) (time : Time)
    (p : PathT) : Prop :=
  ∃ steps, extends_by ta path symbol time steps p
           ∧ last steps = Some (symbol, time, current_location_ p).

(** [p] has reached [time], and its sequence is that of [path] followed by
    at least one step, the last of which names the location of [p]. *)
Definition properly_extends (ta : TAut) (path : PathT) (symbol : Symbol) (time : Time)
    (p : PathT) : Prop :=
  tick_ p = time
  ∧ ∃ steps, steps ≠ []
      ∧ sequence_ p = sequence_ path ++ steps
      ∧ Forall (step_of ta path symbol time) steps
      ∧ last steps = Some (symbol, time, current_location_ p).

Lemma is_enabled_true_symbol (trans : Trans) (symbol : Symbol)
    (clock_vals : gmap string Clock) :
  is_enabled trans symbol clock_vals = Returns true → symbol_ trans = symbol.
Proof. unfold is_enabled. case_bool_decide; [done|]. intros _. by symmetry. Qed.

Lemma loop_returned_from (ta : TAut) (path0 : PathT) (range : list Trans)
    (symbol : Symbol) (time : Time) (path : PathT) (paths res : list PathT) :
  Forall (λ trans, trans ∈ transitions_ ta ∧ source_ trans = current_location_ path0) range →
  (∃ steps, extends_by ta path0 symbol time steps path) →
  Forall (returned_from ta path0 symbol time) paths →
  make_transition_loop location_lt range symbol time path paths = Returns res →
  Forall (returned_from ta path0 symbol time) res.
Proof.
  intros Hrange. revert path paths.
  induction Hrange as [|trans range [Hin Hsource] Hrange IH]; intros path paths Hpath Hpaths.
  { simpl. by intros [= <-]. }
  cbn [make_transition_loop].
  destruct (is_enabled trans symbol (clock_valuations_ path)) as [[]|e] eqn:Henabled;
    simpl; [| by apply IH | done].
  apply is_enabled_true_symbol in Henabled.
  destruct Hpath as (steps & Htick & Hseq & Hsteps).
  assert (extends_by ta path0 symbol time (steps ++ [(symbol, time, target_ trans)])
            (take_transition trans symbol time path)) as Hnew.
  { split_and!; simpl; [done|by rewrite Hseq, (assoc_L (++))|].
    apply Forall_app. split; [done|]. apply Forall_singleton. split; [done|]. eauto. }
  apply IH; [by eexists|].
  apply set_insert_Forall; [|done]. eexists. split; [done|]. by rewrite last_snoc.
Qed.

(** X5. Whatever [make_transition] returns, every returned path has reached
    the time read, and its sequence extends the sequence of the given path
    by at least one step; every appended step carries the symbol and the
    time read and the target of a transition leaving the given path's
    location on that symbol, and the last of them names the returned path's
    location. *)
Theorem make_transition_extends_path (ta : TAut) (path : PathT) (symbol : Symbol)
    (time : Time) (res : list PathT) :
  make_transition location_lt ta path symbol time = Returns res →
  Forall (properly_extends ta path symbol time) res.
Proof.
  unfold make_transition. case_bool_decide; [by intros [= <-]|]. intros Hloop.
  assert (Forall (returned_from ta (advance path time) symbol time) res) as Hres.
  { eapply loop_returned_from; [| |constructor|exact Hloop].
    - unfold equal_range. apply Forall_forall.
      by intros trans [? ?]%list_elem_of_filter.
    - exists []. split_and!; simpl; [done|by rewrite (right_id_L [] (++))|constructor]. }
  eapply Forall_impl; [exact Hres|]. intros p (steps & (Htick & Hseq & Hsteps) & Hlast).
  split; [done|]. exists steps. split_and!; try done. by intros ->.
Qed.

(** X6. [accepts_word] answers [false] on every timed word that starts with
    a negative timestamp, whatever the automaton: paths start at time 0, so
    the only path is dropped before any guard is looked at, and nothing can
    throw. *)
Theorem accepts_word_rejects_negative_start (ta : TAut) (symbol : Symbol) (time : Time)
    (word : TimedWord) :
  time < 0 → accepts_word location_lt ta ((symbol, time) :: word) = Returns false.
Proof.
  intros Hneg. unfold accepts_word. cbn [accepts_word_from].
  unfold read_symbol. cbn [for_each]. unfold make_transition.
  by rewrite bool_decide_eq_true_2.
Qed.

(** No transition of [ta] reads [symbol]. *)
Definition unread (ta : TAut) (symbol : Symbol) : Prop :=
  ∀ trans, trans ∈ transitions_ ta → symbol_ trans ≠ symbol.

Lemma make_transition_unread (ta : TAut) (path : PathT) (symbol : Symbol) (time : Time) :
  unread ta symbol → make_transition location_lt ta path symbol time = Returns [].
Proof.
  intros Hunread. unfold make_transition. case_bool_decide; [done|]. cbn zeta.
  apply loop_without_reader.
  destruct (filter _ (equal_range _ _)) as [|trans range] eqn:Hfilter; [done|].
  assert (trans ∈ trans :: range) as Hin by left. rewrite <-Hfilter in Hin.
  apply list_elem_of_filter in Hin as [Hsymbol Hin]. unfold equal_range in Hin.
  apply list_elem_of_filter in Hin as [_ Hin]. by destruct (Hunread trans).
Qed.

Lemma read_symbol_unread (ta : TAut) (symbol : Symbol) (time : Time) (paths : list PathT) :
  unread ta symbol → read_symbol location_lt ta symbol time paths = Returns [].
Proof.
  intros Hunread. unfold read_symbol.
  enough (∀ acc, for_each (λ path res_paths,
                             new_paths ← make_transition location_lt ta path symbol time;
                             mret (set_insert_range location_lt new_paths res_paths))
                          paths acc = Returns acc) as Hgen by apply Hgen.
  induction paths as [|path paths IH]; intros acc; simpl; [done|].
  rewrite make_transition_unread by done. simpl. apply IH.
Qed.

Lemma accepts_word_from_unread (ta : TAut) (word : TimedWord) (symbol : Symbol)
    (time : Time) (paths : list PathT) :
  well_formed ta → unread ta symbol → (symbol, time) ∈ word →
  Forall (λ path, clocks_ ta ⊆ dom (clock_valuations_ path)) paths →
  accepts_word_from location_lt ta word paths = Returns false.
Proof.
  intros Hwf Hunread. revert paths.
  induction word as [|[symbol0 time0] word IH]; intros paths Hin Hpaths.
  { by apply elem_of_nil in Hin. }
  simpl. apply elem_of_cons in Hin as [[= <- <-]|Hin].
  { by rewrite read_symbol_unread. }
  destruct (read_symbol_returns location_lt ta symbol0 time0 paths Hwf Hpaths)
    as (res & -> & Hres & _).
  simpl. destruct res; [done|]. apply IH; [done|].
  eapply Forall_impl; [done|]. by intros ? [_ ?].
Qed.

(** X14. On an automaton that satisfies the class invariant, [accepts_word]
    answers [false] on every timed word in which a symbol occurs that no
    transition reads. *)
Theorem accepts_word_rejects_unread_symbol (ta : TAut) (word : TimedWord)
    (symbol : Symbol) (time : Time) :
  well_formed ta → unread ta symbol → (symbol, time) ∈ word →
  accepts_word location_lt ta word = Returns false.
Proof.
  intros Hwf Hunread Hin. unfold accepts_word.
  apply (accepts_word_from_unread ta word symbol time); [done..|].
  apply Forall_singleton. simpl. by rewrite dom_gset_to_gmap.
Qed.

End Ordered.
End Automaton.

Section Product.
Context {LocationT1 LocationT2 : Type} `{Countable LocationT1, Countable LocationT2}.

Lemma length_nested {A B C : Type} (f : A → B → C) (xs : list A) (ys : list B) :
  length (x ← xs; y ← ys; [f x y]) = (length xs * length ys)%nat.
Proof.
  induction xs as [|x xs IH]; [done|]. csimpl. rewrite length_app, IH. f_equal.
  clear. induction ys as [|y ys IH]; [done|]. csimpl. by rewrite IH.
Qed.

Lemma pairs_NoDup (X : gset LocationT1) (Y : gset LocationT2) : NoDup (pairs X Y).
Proof.
  unfold pairs. apply NoDup_bind; [| |apply NoDup_elements].
  - intros x1 x2 y _ _ (y1 & Hy1 & _)%list_elem_of_bind (y2 & Hy2 & _)%list_elem_of_bind.
    apply list_elem_of_singleton in Hy1, Hy2. congruence.
  - intros x _. apply NoDup_bind; [| |apply NoDup_elements].
    + intros y1 y2 z _ _ Hz1%list_elem_of_singleton Hz2%list_elem_of_singleton.
      congruence.
    + intros y _. apply NoDup_singleton.
Qed.

(** X7. The product of two automata that satisfy the class invariant,
    nothing being synchronized, is returned and satisfies the class
    invariant itself; it has as many locations as there are pairs of
    locations, and one transition for every transition of one automaton and
    every location of the other. *)
Theorem get_product_well_formed (ta1 : TimedAutomaton LocationT1)
    (ta2 : TimedAutomaton LocationT2) :
  well_formed ta1 → well_formed ta2 →
  ∃ res, get_product ta1 ta2 ∅ = Returns res
    ∧ well_formed res
    ∧ size (locations_ res) = (size (locations_ ta1) * size (locations_ ta2))%nat
    ∧ length (transitions_ res)
      = (length (transitions_ ta1) * size (locations_ ta2)
         + length (transitions_ ta2) * size (locations_ ta1))%nat.
Proof.
  intros Hwf1 Hwf2. exists (interleaving ta1 ta2).
  split; [by apply get_product_unsynchronized|]. split_and!.
  - pose proof Hwf1 as [Hi1 Hf1 _]. pose proof Hwf2 as [Hi2 Hf2 _]. split; simpl.
    + rewrite elem_of_list_to_set, elem_of_pairs. done.
    + intros l. rewrite !elem_of_list_to_set, !elem_of_pairs. set_solver.
    + apply Forall_app. split.
      * by apply first_family_known.
      * by apply second_family_known.
  - simpl. rewrite size_list_to_set by apply pairs_NoDup.
    unfold pairs. by rewrite length_nested.
  - simpl. unfold first_family, second_family.
    by rewrite length_app, !length_nested.
Qed.

End Product.

Section Examples.
Open Scope string_scope.

Lemma constructible_well_formed_witness :
  well_formed
    (add_transition (mkTransition "s0" "a" "s1" [] ∅)
       (add_clock "x" (new_TimedAutomaton {["a"]} "s0" {["s1"]}))).1.
Proof.
  apply constructible_well_formed.
  apply constructible_add_transition, constructible_add_clock, constructible_new.
Defined.

Lemma accepts_word_never_throws_witness :
  ∃ b, accepts_word String.ltb
         (add_transition (mkTransition "s0" "a" "s1" [] ∅)
            (new_TimedAutomaton {["a"]} "s0" {["s1"]})).1
         [("a", 0)] = Returns b.
Proof.
  apply accepts_word_never_throws.
  apply constructible_add_transition, constructible_new.
Defined.

(** A deterministic automaton: [s0 -a, x < 1, reset x-> s1 -b-> s0]. *)
Definition deterministic : TimedAutomaton string :=
  mkTA {["a"; "b"]} {["s0"; "s1"]} "s0" {["s1"]} {["x"]}
       [mkTransition "s0" "a" "s1" [("x", AtomicClockConstraintT less 1)] {["x"]};
        mkTransition "s1" "b" "s0" [] ∅].

Lemma make_transition_single_reader_witness :
  make_transition String.ltb deterministic
    (new_Path "s0" {["x"]}) "a" (Q2Qc (1 # 2))
  = Returns (enabled_outcomes deterministic (new_Path "s0" {["x"]}) "a" (Q2Qc (1 # 2))).
Proof.
  apply make_transition_single_reader.
  - by_evaluation.
  - by_evaluation.
  - by_evaluation.
  - unfold at_most_one_reads. by_evaluation.
Defined.

Lemma make_transition_extends_path_witness :
  Forall (properly_extends reset_enables_guard (new_Path "s0" {["x"]}) "a" 1)
         [mkPath [("a", 1, "s1")] {["x" := 0]} "s1" 1;
          mkPath [("a", 1, "s1"); ("a", 1, "s2")] {["x" := 0]} "s2" 1].
Proof.
  apply (make_transition_extends_path String.ltb). by_evaluation.
Defined.

Lemma accepts_word_rejects_negative_start_witness :
  accepts_word String.ltb deterministic [("a", - 1); ("b", 0)] = Returns false.
Proof. apply accepts_word_rejects_negative_start. by_evaluation. Defined.

Lemma accepts_word_rejects_unread_symbol_witness :
  accepts_word String.ltb deterministic [("a", 0); ("c", 1)] = Returns false.
Proof.
  apply (accepts_word_rejects_unread_symbol String.ltb deterministic _ "c" 1).
  - by_evaluation.
  - intros trans Hin. revert trans Hin. apply Forall_forall. by_evaluation.
  - by_evaluation.
Defined.

Lemma get_product_well_formed_witness :
  ∃ res, get_product deterministic two_targets ∅ = Returns res
    ∧ well_formed res
    ∧ size (locations_ res)
      = (size (locations_ deterministic) * size (locations_ two_targets))%nat
    ∧ length (transitions_ res)
      = (length (transitions_ deterministic) * size (locations_ two_targets)
         + length (transitions_ two_targets) * size (locations_ deterministic))%nat.
Proof. apply get_product_well_formed; by_evaluation. Defined.

End Examples.
End TAProperties.

(** * Further properties of alternating timed automata ([ata.h]) *)
Module ATAProperties.
Import ATAFormula ATA.

Section Automaton.
Context {LocationT : Type} `{Countable LocationT}.
Variable formula_get_minimal_models : Formula LocationT → Time → gset (gset (LocationT * Time)).
Variable NDEBUG : bool.

Abbreviation Configuration := (gset (LocationT * Time)).
Abbreviation Run := (list ((Symbol + Time) * gset (LocationT * Time))).
Abbreviation ATAut := (AlternatingTimedAutomaton LocationT).
Abbreviation symbol_transition := (make_symbol_transition formula_get_minimal_models NDEBUG).
Abbreviation symbol_loop := (make_symbol_transition_loop formula_get_minimal_models NDEBUG).
Abbreviation accepts := (accepts_word formula_get_minimal_models NDEBUG).
Abbreviation rest := (read_rest formula_get_minimal_models NDEBUG).

Lemma ends_with_symbol_snoc (run : Run) (symbol : Symbol) (c : Configuration) :
  ends_with_symbol (run ++ [(inl symbol, c)]) = true.
Proof. unfold ends_with_symbol. by rewrite last_snoc. Qed.

Lemma ends_with_time_snoc (run : Run) (time : Time) (c : Configuration) :
  ends_with_time (run ++ [(inr time, c)]) = true.
Proof. unfold ends_with_time. by rewrite last_snoc. Qed.

Lemma ends_with_symbol_not_time (run : Run) :
  ends_with_symbol run = true → run ≠ [] ∧ ends_with_time run = false.
Proof.
  unfold ends_with_symbol, ends_with_time. destruct run as [|step run]; [done|].
  destruct (last (step :: run)) as [[[?|?] ?]|]; done.
Qed.

Lemma ends_with_time_not_symbol (run : Run) :
  ends_with_time run = true → ends_with_symbol run = false.
Proof.
  unfold ends_with_symbol, ends_with_time.
  destruct (last run) as [[[?|?] ?]|]; done.
Qed.

Lemma symbol_loop_results (ata : ATAut) (runs : list Run) (symbol : Symbol)
    (acc res : list Run) :
  Forall (λ run, ends_with_symbol run = true) acc →
  symbol_loop ata runs symbol acc = Returns res →
  Forall (λ run, ends_with_symbol run = true) res.
Proof.
  revert acc. induction runs as [|run runs IH]; intros acc Hacc; simpl.
  { by intros [= <-]. }
  destruct (ends_with_symbol run); [done|].
  destruct (models_of _ _ _ _) as [|models0 models'].
  { destruct NDEBUG; [|done]. by intros [= <-]. }
  apply IH. apply Forall_app. split; [done|].
  apply Forall_fmap, Forall_forall. intros c _. apply ends_with_symbol_snoc.
Qed.

Lemma time_loop_results (runs : list Run) (time : Time) (acc res : list Run) :
  Forall (λ run, ends_with_time run = true) acc →
  make_time_transition_loop runs time acc = Returns res →
  Forall (λ run, ends_with_time run = true) res.
Proof.
  revert acc. induction runs as [|run runs IH]; intros acc Hacc; simpl.
  { by intros [= <-]. }
  destruct run as [|step run]; [done|].
  destruct (ends_with_time (step :: run)); [done|].
  apply IH. apply Forall_app. split; [done|].
  apply Forall_singleton, ends_with_time_snoc.
Qed.

Lemma symbol_loop_exception (ata : ATAut) (runs : list Run) (symbol : Symbol)
    (acc : list Run) (e : exception) :
  symbol_loop ata runs symbol acc = Throws e →
  (e = WrongTransitionTypeException ∧ Exists (λ run, ends_with_symbol run = true) runs)
  ∨ (e = assertion_failed ∧ NDEBUG = false).
Proof.
  revert acc. induction runs as [|run runs IH]; intros acc; simpl; [done|].
  destruct (ends_with_symbol run) eqn:Hends.
  { intros [= <-]. left. split; [done|]. by left. }
  destruct (models_of _ _ _ _) as [|models0 models'].
  { destruct NDEBUG; [done|]. intros [= <-]. by right. }
  intros [[-> ?]|?]%IH; [left|by right]. split; [done|]. by right.
Qed.

Lemma time_transition_after_symbol (ata : ATAut) (runs : list Run) (time : Time) :
  Forall (λ run, ends_with_symbol run = true) runs → ¬ time < 0 →
  ∃ res, make_time_transition ata runs time = Returns res
         ∧ Forall (λ run, ends_with_time run = true) res.
Proof.
  intros Hruns Htime. unfold make_time_transition.
  rewrite bool_decide_eq_false_2 by done.
  rewrite time_loop_returns.
  - eexists. split; [done|]. apply Forall_fmap, Forall_forall.
    intros run _. apply ends_with_time_snoc.
  - eapply Forall_impl; [done|]. apply ends_with_symbol_not_time.
Qed.

Lemma symbol_transition_after_time (ata : ATAut) (runs : list Run) (symbol : Symbol) :
  Forall (λ run, ends_with_symbol run = false) runs →
  (∃ res, symbol_transition ata runs symbol = Returns res
          ∧ Forall (λ run, ends_with_symbol run = true) res)
  ∨ (NDEBUG = false ∧ symbol_transition ata runs symbol = Throws assertion_failed).
Proof.
  intros Hruns. unfold make_symbol_transition.
  destruct (symbol_loop ata runs symbol []) as [res|e] eqn:Hloop.
  - left. exists res. split; [done|]. by eapply symbol_loop_results.
  - apply symbol_loop_exception in Hloop as [[_ Hex]|[-> ?]]; [|by right].
    apply Exists_exists in Hex as (run & Hin & Hends).
    rewrite Forall_forall in Hruns. rewrite Hruns in Hends by done. done.
Qed.

(** X8. If a symbol step returned runs, a second symbol step on them throws
    [WrongTransitionTypeException]; and if a time step returned runs, so
    does a second time step on them, the delta not being negative. *)
Theorem steps_do_not_repeat (ata : ATAut) (runs res : list Run) :
  res ≠ [] →
  (∀ symbol symbol',
     symbol_transition ata runs symbol = Returns res →
     symbol_transition ata res symbol' = Throws WrongTransitionTypeException)
  ∧ (∀ time time',
       make_time_transition ata runs time = Returns res → ¬ time' < 0 →
       make_time_transition ata res time' = Throws WrongTransitionTypeException).
Proof.
  intros Hres. split.
  - intros symbol symbol' Hstep.
    apply (symbol_loop_results ata runs symbol [] res) in Hstep; [|done].
    destruct Hstep as [|run res' Hends _]; [done|].
    unfold make_symbol_transition. simpl. by rewrite Hends.
  - intros time time' Hstep Htime'. unfold make_time_transition in *.
    case_bool_decide; [done|]. rewrite bool_decide_eq_false_2 by done.
    apply time_loop_throws.
    apply (time_loop_results runs time [] res) in Hstep; [|done].
    destruct Hstep as [|run res' Hends _]; [done|]. left. by right.
Qed.

Lemma read_rest_unfold (ata : ATAut) (symbol : Symbol) (time last : Time)
    (runs : list Run) :
  rest ata (symbol, time) (runs, last)
  = (runs ← make_time_transition ata runs (time - last);
     runs ← symbol_transition ata runs symbol;
     mret (runs, time)).
Proof. reflexivity. Qed.

Lemma rest_keeps_alternating (ata : ATAut) (word : TimedWord) (runs : list Run)
    (last : Time) :
  Forall (λ run, ends_with_symbol run = true) runs →
  (∃ state, for_each (rest ata) word (runs, last) = Returns state)
  ∨ (∃ d, d < 0 ∧ for_each (rest ata) word (runs, last)
                  = Throws (NegativeTimeDeltaException d))
  ∨ (NDEBUG = false ∧ for_each (rest ata) word (runs, last) = Throws assertion_failed).
Proof.
  revert runs last. induction word as [|[symbol time] word IH]; intros runs last Hruns.
  { left. by eexists. }
  cbn [for_each]. rewrite read_rest_unfold.
  destruct (decide (time - last < 0)) as [Hneg|Hpos].
  { right. left. exists (time - last). split; [done|].
    unfold make_time_transition. by rewrite bool_decide_eq_true_2. }
  destruct (time_transition_after_symbol ata runs (time - last) Hruns Hpos)
    as (res & -> & Hres). simpl.
  destruct (symbol_transition_after_time ata res symbol)
    as [(res' & -> & Hres')|[? ->]]; simpl; [|by apply IH|by right; right].
  eapply Forall_impl; [done|]. apply ends_with_time_not_symbol.
Qed.

(** X9. [accepts_word] never throws [WrongTransitionTypeException]: it
    alternates the two kinds of steps itself. *)
Theorem accepts_word_alternates (ata : ATAut) (word : TimedWord) :
  accepts_word formula_get_minimal_models NDEBUG ata word
  ≠ Throws WrongTransitionTypeException.
Proof.
  destruct word as [|[symbol time] word]; [done|]. unfold accepts_word.
  destruct (symbol_transition_after_time ata [[]] symbol)
    as [(res & -> & Hres)|[_ ->]]; [by apply Forall_singleton| |done].
  simpl.
  destruct (rest_keeps_alternating ata word res time Hres)
    as [[state ->]|[(d & _ & ->)|[_ ->]]]; done.
Qed.

Lemma rest_decreasing (ata : ATAut) (word : TimedWord) (runs : list Run) (last : Time) :
  Forall (λ run, ends_with_symbol run = true) runs →
  TA.decreases_after last word →
  (∃ d, d < 0 ∧ for_each (rest ata) word (runs, last)
                = Throws (NegativeTimeDeltaException d))
  ∨ (NDEBUG = false ∧ for_each (rest ata) word (runs, last) = Throws assertion_failed).
Proof.
  revert runs last. induction word as [|[symbol time] word IH]; intros runs last Hruns;
    [done|].
  intros Hdec. cbn [for_each]. rewrite read_rest_unfold.
  destruct (decide (time - last < 0)) as [Hneg|Hpos].
  { left. exists (time - last). split; [done|].
    unfold make_time_transition. by rewrite bool_decide_eq_true_2. }
  destruct Hdec as [Hlt|Hdec].
  { destruct Hpos. apply Qclt_minus_iff. apply Qclt_minus_iff in Hlt.
    by replace (0 + - (time - last)) with (last + - time) by ring. }
  destruct (time_transition_after_symbol ata runs (time - last) Hruns Hpos)
    as (res & -> & Hres). simpl.
  destruct (symbol_transition_after_time ata res symbol)
    as [(res' & -> & Hres')|[? ->]]; simpl; [|by apply IH|by right].
  eapply Forall_impl; [done|]. apply ends_with_time_not_symbol.
Qed.

(** X10. On a timed word whose timestamps decrease at some point
    [accepts_word] returns no answer: it throws
    [NegativeTimeDeltaException] with a negative delta, unless the assertion
    of [make_symbol_transition] aborts first, which needs a build without
    [NDEBUG]. *)
Theorem accepts_word_reports_decreasing_time (ata : ATAut) (word : TimedWord) :
  TA.timestamps_decrease word →
  (∃ d, d < 0 ∧ accepts ata word = Throws (NegativeTimeDeltaException d))
  ∨ (NDEBUG = false ∧ accepts ata word = Throws assertion_failed).
Proof.
  destruct word as [|[symbol time] word]; [done|]. intros Hdec. unfold accepts_word.
  destruct (symbol_transition_after_time ata [[]] symbol)
    as [(res & -> & Hres)|[? ->]]; [by apply Forall_singleton| |by right].
  simpl.
  destruct (rest_decreasing ata word res time Hres Hdec) as [(d & ? & ->)|[? ->]];
    [left; by exists d|by right].
Qed.


(** X12. [make_symbol_transition] gives up all runs at the first run none of
    whose start states has a transition on the symbol, such as a run whose
    last configuration is empty: without [NDEBUG] the assertion aborts, with
    it the empty vector is returned, the successors of the runs before and
    all runs behind being dropped. *)
Theorem symbol_transition_gives_up (ata : ATAut) (before : list Run) (run : Run)
    (after : list Run) (symbol : Symbol) :
  Forall (λ r, ends_with_symbol r = false ∧ has_transition ata symbol r) before →
  ends_with_symbol run = false →
  ¬ has_transition ata symbol run →
  symbol_transition ata (before ++ run :: after) symbol
  = if NDEBUG then Returns [] else Throws assertion_failed.
Proof.
  intros Hbefore Hends Hnone. unfold make_symbol_transition.
  enough (∀ acc, symbol_loop ata (before ++ run :: after) symbol acc
                 = if NDEBUG then Returns [] else Throws assertion_failed) as Hgen
    by apply Hgen.
  induction Hbefore as [|r before [Hr Htrans] _ IH]; intros acc; simpl.
  - rewrite Hends.
    destruct (models_of formula_get_minimal_models ata symbol
                (elements (start_states ata run))) eqn:Hmodels; [done|].
    destruct Hnone. apply (has_transition_models formula_get_minimal_models).
    by rewrite Hmodels.
  - rewrite Hr. apply (has_transition_models formula_get_minimal_models) in Htrans.
    destruct (models_of formula_get_minimal_models ata symbol
                (elements (start_states ata r))); [done|]. apply IH.
Qed.

Lemma empty_configuration_no_transition (ata : ATAut) (symbol : Symbol) (run : Run) :
  run ≠ [] → last_configuration run = ∅ → ¬ has_transition ata symbol run.
Proof.
  intros Hne Hempty (state & Hin & _). unfold start_states, last_configuration in *.
  destruct (last run) as [[? ?]|] eqn:Hlast.
  - subst. set_solver.
  - by apply last_None in Hlast.
Qed.

End Automaton.

Section Examples.
Open Scope string_scope.

Lemma steps_do_not_repeat_witness :
  make_symbol_transition ATAFormula.get_minimal_models true spawning [after_a] "a"
  = Throws WrongTransitionTypeException
  ∧ make_time_transition spawning [after_a_1] 1 = Throws WrongTransitionTypeException.
Proof.
  split.
  - refine (proj1 (steps_do_not_repeat ATAFormula.get_minimal_models true spawning
                     [[]] [after_a] _) "a" "a" _); [discriminate|by_evaluation].
  - refine (proj2 (steps_do_not_repeat ATAFormula.get_minimal_models true spawning
                     [after_a] [after_a_1] _) 1 1 _ _);
      [discriminate|by_evaluation|by_evaluation].
Defined.

Lemma accepts_word_reports_decreasing_time_witness :
  (∃ d, d < 0
        ∧ accepts_word ATAFormula.get_minimal_models true spawning [("a", 1); ("a", 0)]
          = Throws (NegativeTimeDeltaException d))
  ∨ (true = false
     ∧ accepts_word ATAFormula.get_minimal_models true spawning [("a", 1); ("a", 0)]
       = Throws assertion_failed).
Proof.
  apply accepts_word_reports_decreasing_time. simpl. left. by_evaluation.
Defined.

(** The second run has reached the empty configuration; the successor of
    the first run and the third run are lost with it. *)
Lemma symbol_transition_gives_up_witness :
  make_symbol_transition ATAFormula.get_minimal_models true spawning
    [[]; [(inl "a", ∅); (inr 0, ∅)]; []] "a" = Returns [].
Proof.
  apply (symbol_transition_gives_up ATAFormula.get_minimal_models true spawning
           [[]] [(inl "a", ∅); (inr 0, ∅)] [[]] "a").
  - apply Forall_singleton. split; [reflexivity|].
    exists ("q0", 0). split; by_evaluation.
  - reflexivity.
  - by apply empty_configuration_no_transition.
Defined.

End Examples.
End ATAProperties.

(** * Further properties of the Golog++ wrapper ([golog_program.cpp]) *)
Module GologProperties.
Import Golog.
#[local] Open Scope nat_scope.

Section Program.
Variable parses : string → bool.
Variable declares_main : string → bool.
Variable env_terminate_found : bool.
Variable ctl_terminate_found : bool.

Abbreviation construct :=
  (Golog.construct parses declares_main env_terminate_found ctl_terminate_found).
Abbreviation reachable :=
  (Golog.reachable parses declares_main env_terminate_found ctl_terminate_found).
Abbreviation acceptable :=
  (Golog.acceptable parses declares_main env_terminate_found ctl_terminate_found).

(** The processes a program can get into from [p] by constructing and
    destroying [GologProgram] objects. *)
Inductive later (p : Process) : Process → Prop :=
| later_now : later p p
| later_construct (program : string) (q : Process) :
    later p q → later p (construct program q).1
| later_destroy (q : Process) :
    later p q → 0 < instances q → later p (destroy q).

(** X15. [ReadylogContext::init] is called only on a context that is shut
    down, and [ReadylogContext::shutdown] only on one that is initialized:
    while the flag [initialized] is set there has been one call of [init]
    more than of [shutdown], otherwise as many. *)
Theorem context_calls_balance (p : Process) :
  reachable p →
  context_inits p = context_shutdowns p + (if initialized p then 1 else 0).
Proof.
  induction 1 as [|program p Hreach IH|p Hreach IH Hlive].
  - done.
  - destruct (construct_cases parses declares_main env_terminate_found
                ctl_terminate_found program p)
      as [[Hinit ->]|[Hinit [[_ ->]|[_ [e ->]]]]]; simpl; [done|..];
      rewrite Hinit in IH; lia.
  - apply reachable_exclusive in Hreach as [_ Hflag].
    rewrite Hflag in IH by done. simpl. lia.
Qed.

(** X16. A constructor that throws behind its guard, the program not being
    one it accepts, leaves the flag [initialized] set without an object
    alive: no destructor can reset it, and from then on every construction
    throws [std::runtime_error], also from a program the constructor would
    accept, the process staying as it is. *)
Theorem failed_construction_locks (p : Process) (program : string) :
  reachable p → initialized p = false → ¬ acceptable program →
  (∃ e, (construct program p).2 = Throws e)
  ∧ initialized (construct program p).1 = true
  ∧ instances (construct program p).1 = 0
  ∧ ∀ q, later (construct program p).1 q →
         q = (construct program p).1
         ∧ ∀ program', construct program' q = (q, Throws runtime_error).
Proof.
  intros Hreach Hinit Hnot.
  assert (instances p = 0) as Hnone.
  { apply reachable_exclusive in Hreach as [_ Hflag].
    destruct (instances p); [done|]. rewrite Hflag in Hinit by lia. done. }
  destruct (construct_cases parses declares_main env_terminate_found
              ctl_terminate_found program p)
    as [[Hinit' _]|[_ [[Hok _]|[_ [e ->]]]]]; [congruence|done|].
  simpl. split_and!; [by exists e|done..|].
  induction 1 as [|program' q _ [-> IH]|q _ [-> IH] Hlive].
  - done.
  - by rewrite IH.
  - simpl in Hlive. lia.
Qed.

End Program.

Section Examples.
Open Scope string_scope.

Lemma context_calls_balance_witness :
  context_inits (destroy (mkProcess true 1 0 1))
  = context_shutdowns (destroy (mkProcess true 1 0 1))
    + (if initialized (destroy (mkProcess true 1 0 1)) then 1 else 0).
Proof.
  apply (context_calls_balance (λ _, true) (λ _, true) true true).
  apply reachable_destroy; [|simpl; lia].
  apply (reachable_construct (λ _, true) (λ _, true) true true "procedure main() {}"
           process_start).
  apply reachable_start.
Defined.

(** A program without [main] locks the process. *)
Lemma failed_construction_locks_witness :
  (∃ e, (Golog.construct (λ _, true) (λ program, bool_decide (program ≠ "")) true true
           "" process_start).2 = Throws e)
  ∧ initialized (Golog.construct (λ _, true) (λ program, bool_decide (program ≠ ""))
                   true true "" process_start).1 = true
  ∧ instances (Golog.construct (λ _, true) (λ program, bool_decide (program ≠ ""))
                 true true "" process_start).1 = 0
  ∧ ∀ q, later (λ _, true) (λ program, bool_decide (program ≠ "")) true true
               (Golog.construct (λ _, true) (λ program, bool_decide (program ≠ ""))
                  true true "" process_start).1 q →
         q = (Golog.construct (λ _, true) (λ program, bool_decide (program ≠ ""))
                true true "" process_start).1
         ∧ ∀ program',
             Golog.construct (λ _, true) (λ program, bool_decide (program ≠ ""))
               true true program' q
             = (q, Throws runtime_error).
Proof.
  apply failed_construction_locks.
  - apply reachable_start.
  - reflexivity.
  - intros (_ & Hmain & _). discriminate Hmain.
Defined.

End Examples.
End GologProperties.
